(** * EditableStreamOverBuffer: an in-memory editable byte stream

    A shallow embedding of
    [sdk_file/msip_file/file/editable_stream_over_buffer.cpp] (the sample
    implementation of [mip::EditableStream]) and the properties its
    specification states about it.

    Modelling conventions.
    - [std::vector<uint8_t>] is a [list byte]; vector storage is taken to be
      unbounded (no [std::bad_alloc], no [std::length_error]).
    - [int64_t] values are integers of [Z]; signed overflow is undefined
      behaviour in C++, so the checked operations of [Int64] return [None]
      when the mathematical result does not fit.
    - a caller's [uint8_t*] argument is the list of bytes of the array it
      points to; reading or writing past that array is undefined behaviour.
    - a member function is a computation [M A]: it takes the object's state
      and either returns a value with the new state, throws an exception
      leaving a state behind, or has undefined behaviour.

    The string helpers of the sample ([msip_file/file/main.cpp]) and the
    error base class ([include/mip/error.h]) follow, with their own
    conventions stated where they start. *)

From Stdlib Require Import ZArith NArith List Lia String Ascii Bool.
From Stdlib Require Import Init.Byte.
Import ListNotations.
Local Open Scope Z_scope.

(** ** 64-bit signed integers *)

Module Int64.

(** [std::numeric_limits<int64_t>::max()] and [min()]. *)
Definition max : Z := 9223372036854775807.
Definition min : Z := -9223372036854775808.

Definition in_range (z : Z) : bool := (min <=? z) && (z <=? max).

(** [a + b] and [a - b] on [int64_t]: undefined when the result overflows. *)
Definition add (a b : Z) : option Z :=
  if in_range (a + b) then Some (a + b) else None.

Definition sub (a b : Z) : option Z :=
  if in_range (a - b) then Some (a - b) else None.

(** Conversion of a [uint64_t] to [int64_t]: values above [max] wrap
    around modulo 2^64. *)
Definition of_uint64 (z : Z) : Z :=
  if z <=? max then z else z - 18446744073709551616.

End Int64.

(** ** The object and the outcome of a call *)

(** The private members of [EditableStreamOverBuffer]. *)
Record stream : Type := mkStream {
  mBuffer : list byte;
  mSize : Z;
  mPosition : Z
}.

(** The only exception type the file throws: [std::runtime_error(what)]. *)
Inductive exn : Type :=
| runtime_error (what : string).

Inductive outcome (A : Type) : Type :=
| Returns (a : A) (s : stream)
| Throws (e : exn) (s : stream)
| Undefined.

Arguments Returns {A} a s.
Arguments Throws {A} e s.
Arguments Undefined {A}.

Definition M (A : Type) : Type := stream -> outcome A.

Definition ret {A} (a : A) : M A := fun s => Returns a s.

Definition bind {A B} (m : M A) (k : A -> M B) : M B :=
  fun s =>
    match m s with
    | Returns a s' => k a s'
    | Throws e s' => Throws e s'
    | Undefined => Undefined
    end.

Definition throw {A} (e : exn) : M A := fun s => Throws e s.

(** A partial primitive: [None] is undefined behaviour. *)
Definition defined {A} (o : option A) : M A :=
  fun s => match o with Some a => Returns a s | None => Undefined end.

Definition get {A} (field : stream -> A) : M A := fun s => Returns (field s) s.

Definition set_mBuffer (b : list byte) : M unit :=
  fun s => Returns tt (mkStream b (mSize s) (mPosition s)).

Definition set_mSize (z : Z) : M unit :=
  fun s => Returns tt (mkStream (mBuffer s) z (mPosition s)).

Definition set_mPosition (z : Z) : M unit :=
  fun s => Returns tt (mkStream (mBuffer s) (mSize s) z).

(** [if (c) { body }] *)
Definition when (c : bool) (body : M unit) : M unit :=
  if c then body else ret tt.

Declare Scope cpp_scope.
Delimit Scope cpp_scope with cpp.
Notation "x <- m ;; k" := (bind m (fun x => k))
  (at level 100, m at next level, right associativity) : cpp_scope.
Notation "m ;;; k" := (bind m (fun _ => k))
  (at level 100, right associativity) : cpp_scope.
Local Open Scope cpp_scope.

(** ** Vector and pointer primitives *)

Definition size_of {A} (l : list A) : Z := Z.of_nat (List.length l).

(** The range [buffer, buffer + static_cast<size_t>(n)) of a caller's
    array: defined when the array holds that many bytes. A negative [n]
    casts to a huge [size_t], past any array. *)
Definition ptr_range (buffer : list byte) (n : Z) : option (list byte) :=
  if (0 <=? n) && (n <=? size_of buffer)
  then Some (firstn (Z.to_nat n) buffer)
  else None.

(** [&v[static_cast<size_t>(i)]]: the bytes from index [i] on; [operator[]]
    needs [i] below the vector's size. *)
Definition vec_at (v : list byte) (i : Z) : option (list byte) :=
  if (0 <=? i) && (i <? size_of v)
  then Some (skipn (Z.to_nat i) v)
  else None.

(** [MEMCPY(dest, destSize, src, count)], that is [memcpy(dest, src, count)]
    (on Windows [memcpy_s], which copies the same bytes whenever
    [count <= destSize], as it is at its one use): the first [count] bytes
    of [dest] are replaced by those of [src]; both arrays must hold [count]
    bytes. *)
Definition memcpy (dest src : list byte) (count : Z) : option (list byte) :=
  if (0 <=? count) && (count <=? size_of src) && (count <=? size_of dest)
  then Some (firstn (Z.to_nat count) src ++ skipn (Z.to_nat count) dest)
  else None.

(** [v.insert(v.begin() + static_cast<size_t>(pos), first, last)]: the
    iterator must lie within [begin(), end()]. *)
Definition vec_insert (v : list byte) (pos : Z) (src : list byte)
  : option (list byte) :=
  if (0 <=? pos) && (pos <=? size_of v)
  then Some (firstn (Z.to_nat pos) v ++ src ++ skipn (Z.to_nat pos) v)
  else None.

(** [v.erase(v.begin() + static_cast<size_t>(first),
             v.begin() + static_cast<size_t>(last))]: a valid range of the
    vector. *)
Definition vec_erase (v : list byte) (first last : Z) : option (list byte) :=
  if (0 <=? first) && (first <=? last) && (last <=? size_of v)
  then Some (firstn (Z.to_nat first) v ++ skipn (Z.to_nat last) v)
  else None.

(** ** The member functions *)

(** The constructor copies the vector, converts its [size()] to
    [uint64_t] and stores it in the [int64_t] member. *)
Definition EditableStreamOverBuffer (buffer : list byte) : stream :=
  {| mBuffer := buffer;
     mSize := Int64.of_uint64 (size_of buffer);
     mPosition := 0 |}.

(** [Read] returns the byte count and the caller's array after the copy. *)
Definition Read (buffer : list byte) (bufferLength : Z) : M (Z * list byte) :=
  if bufferLength <=? 0 then ret (0, buffer) else
  size <- get mSize ;;
  position <- get mPosition ;;
  avail <- defined (Int64.sub size position) ;;
  let bytesRead := if bufferLength <=? avail then bufferLength else avail in
  buffer' <-
    (if negb (bytesRead =? 0)
     then
       vec <- get mBuffer ;;
       src <- defined (vec_at vec position) ;;
       copied <- defined (memcpy buffer src bytesRead) ;;
       position' <- defined (Int64.add position bytesRead) ;;
       set_mPosition position' ;;;
       ret copied
     else ret buffer) ;;
  ret (bytesRead, buffer').

Definition Insert (buffer : list byte) (bufferLength : Z) : M Z :=
  if bufferLength <=? 0 then ret 0 else
  size <- get mSize ;;
  room <- defined (Int64.sub Int64.max size) ;;
  if room <? bufferLength
  then throw (runtime_error
                "Inserting buffer would exceed maximum stream length.")
  else
  position <- get mPosition ;;
  vec <- get mBuffer ;;
  src <- defined (ptr_range buffer bufferLength) ;;
  vec' <- defined (vec_insert vec position src) ;;
  set_mBuffer vec' ;;;
  size' <- defined (Int64.add size bufferLength) ;;
  set_mSize size' ;;;
  position' <- defined (Int64.add position bufferLength) ;;
  set_mPosition position' ;;;
  ret bufferLength.

Definition Delete (numBytes : Z) : M Z :=
  if numBytes <=? 0 then ret 0 else
  size <- get mSize ;;
  position <- get mPosition ;;
  avail <- defined (Int64.sub size position) ;;
  let bytesDeleted := if numBytes <=? avail then numBytes else avail in
  when (negb (bytesDeleted =? 0))
    (last <- defined (Int64.add position bytesDeleted) ;;
     vec <- get mBuffer ;;
     vec' <- defined (vec_erase vec position last) ;;
     set_mBuffer vec' ;;;
     size' <- defined (Int64.sub size bytesDeleted) ;;
     set_mSize size') ;;;
  ret bytesDeleted.

Definition Update (buffer : list byte) (bufferLength replaceLength : Z) : M Z :=
  Delete replaceLength ;;;
  Insert buffer bufferLength.

Definition Write (buffer : list byte) (bufferLength : Z) : M Z :=
  Update buffer bufferLength bufferLength.

Definition Flush : M bool := ret true.

Definition Seek (position : Z) : M unit :=
  if position <? 0
  then throw (runtime_error "Position must not be less than zero.")
  else
  size <- get mSize ;;
  if position >? size
  then throw (runtime_error "Position must not be larger than size.")
  else set_mPosition position.

Definition CanRead : bool := true.

Definition CanWrite : bool := true.

Definition Position : M Z := get mPosition.

Definition Size : M Z := get mSize.

(** The overload [void Size(int64_t value)]. *)
Definition Size_set (value : Z) : M unit :=
  throw (runtime_error "Not Implemented").

(** ** Well-formed states *)

(** The two integer members hold [int64_t] values. *)
Definition int64_typed (st : stream) : Prop :=
  (Int64.min <= mSize st <= Int64.max) /\
  (Int64.min <= mPosition st <= Int64.max).

(** The data-model invariant: the cursor lies within the content and
    [mSize] is the number of bytes of [mBuffer]. *)
Definition stream_inv (st : stream) : Prop :=
  (0 <= mPosition st <= mSize st) /\ mSize st = size_of (mBuffer st).

Definition valid (st : stream) : Prop := int64_typed st /\ stream_inv st.

(** ** The exceptions thrown *)

Definition overflow_error : exn :=
  runtime_error "Inserting buffer would exceed maximum stream length.".

Definition seek_negative_error : exn :=
  runtime_error "Position must not be less than zero.".

Definition seek_beyond_error : exn :=
  runtime_error "Position must not be larger than size.".

(** ** Update as the specification reads it *)

(** The specification's reading of [Update]: call [Delete r]; on the state
    it leaves, call [Insert B n]; the result of the whole is the result of
    that [Insert]. *)
Definition Delete_then_Insert (B : list byte) (n r : Z) (st : stream)
  : outcome Z :=
  match Delete r st with
  | Returns _ st1 => Insert B n st1
  | Throws e st1 => Throws e st1
  | Undefined => Undefined
  end.

(** ** Calls and the state they leave *)

(** The state an outcome leaves behind, whether the call returned or
    threw; none when the behaviour is undefined. *)
Definition state_after {A} (o : outcome A) : option stream :=
  match o with
  | Returns _ s => Some s
  | Throws _ s => Some s
  | Undefined => None
  end.

(** A call of one of the state-accessing member functions, with its
    arguments. *)
Inductive call : Type :=
| call_Read (buffer : list byte) (bufferLength : Z)
| call_Write (buffer : list byte) (bufferLength : Z)
| call_Insert (buffer : list byte) (bufferLength : Z)
| call_Delete (numBytes : Z)
| call_Update (buffer : list byte) (bufferLength replaceLength : Z)
| call_Seek (position : Z)
| call_Flush
| call_Position
| call_Size
| call_Size_set (value : Z).

Definition perform (c : call) (st : stream) : option stream :=
  match c with
  | call_Read buffer bufferLength => state_after (Read buffer bufferLength st)
  | call_Write buffer bufferLength => state_after (Write buffer bufferLength st)
  | call_Insert buffer bufferLength =>
      state_after (Insert buffer bufferLength st)
  | call_Delete numBytes => state_after (Delete numBytes st)
  | call_Update buffer bufferLength replaceLength =>
      state_after (Update buffer bufferLength replaceLength st)
  | call_Seek position => state_after (Seek position st)
  | call_Flush => state_after (Flush st)
  | call_Position => state_after (Position st)
  | call_Size => state_after (Size st)
  | call_Size_set value => state_after (Size_set value st)
  end.

(** What a caller owes for a pointer and length pair: the array pointed to
    holds the bytes the call reads or writes through it. [Read] writes
    [min bufferLength (mSize - mPosition)] bytes when [bufferLength] is
    positive; [Insert] reads [bufferLength] bytes when that is positive
    and passes the overflow check, and [Update] and [Write] likewise on
    the size their [Delete] leaves. A call that returns or throws before
    it gets to the array owes nothing. *)
Definition caller_contract (c : call) (st : stream) : Prop :=
  match c with
  | call_Read buffer bufferLength =>
      0 < bufferLength ->
      Z.min bufferLength (mSize st - mPosition st) <= size_of buffer
  | call_Insert buffer bufferLength =>
      0 < bufferLength ->
      bufferLength <= Int64.max - mSize st ->
      bufferLength <= size_of buffer
  | call_Write buffer bufferLength =>
      0 < bufferLength ->
      bufferLength
      <= Int64.max
         - (mSize st
            - Z.max 0 (Z.min bufferLength (mSize st - mPosition st))) ->
      bufferLength <= size_of buffer
  | call_Update buffer bufferLength replaceLength =>
      0 < bufferLength ->
      bufferLength
      <= Int64.max
         - (mSize st
            - Z.max 0 (Z.min replaceLength (mSize st - mPosition st))) ->
      bufferLength <= size_of buffer
  | _ => True
  end.

(** * The sample's string helpers ([msip_file/file/main.cpp])

    A [std::string] is a [list ascii]. A [size_t] index is a [nat], and a
    search result is an [option nat] with [None] for [std::string::npos],
    which no index of a string equals. *)

Module StdString.

(** Index of the first, and of the last, character satisfying [p]. *)
Fixpoint find_first_if (p : ascii -> bool) (s : list ascii) : option nat :=
  match s with
  | [] => None
  | c :: s' => if p c then Some 0%nat else option_map S (find_first_if p s')
  end.

Fixpoint find_last_if (p : ascii -> bool) (s : list ascii) : option nat :=
  match s with
  | [] => None
  | c :: s' =>
      match find_last_if p s' with
      | Some i => Some (S i)
      | None => if p c then Some 0%nat else None
      end
  end.

(** Membership in the character set a [const char*] argument spells. *)
Definition mem (c : ascii) (chars : list ascii) : bool :=
  existsb (Ascii.eqb c) chars.

(** [s.find_last_of(chars)], [s.find_last_not_of(chars)],
    [s.find_first_not_of(chars)]. *)
Definition find_last_of (s chars : list ascii) : option nat :=
  find_last_if (fun c => mem c chars) s.

Definition find_last_not_of (s chars : list ascii) : option nat :=
  find_last_if (fun c => negb (mem c chars)) s.

Definition find_first_not_of (s chars : list ascii) : option nat :=
  find_first_if (fun c => negb (mem c chars)) s.

(** [s.rfind(c)] and [s.find_last_of(c)] for a single character [c]. *)
Definition rfind (s : list ascii) (c : ascii) : option nat :=
  find_last_if (Ascii.eqb c) s.

(** [s.find(c, pos)] for a one-character pattern: the first index at or
    after [pos] holding [c]. *)
Definition find_from (s : list ascii) (c : ascii) (pos : nat) : option nat :=
  option_map (Nat.add pos) (find_first_if (Ascii.eqb c) (skipn pos s)).

(** [s.find(pattern)]: the first index where [pattern] occurs; an empty
    pattern occurs at 0. *)
Fixpoint starts_with (pattern s : list ascii) : bool :=
  match pattern, s with
  | [], _ => true
  | _ :: _, [] => false
  | x :: pattern', y :: s' => Ascii.eqb x y && starts_with pattern' s'
  end.

Fixpoint find (s pattern : list ascii) : option nat :=
  if starts_with pattern s then Some 0%nat
  else match s with
       | [] => None
       | _ :: s' => option_map S (find s' pattern)
       end.

(** [s.substr(pos)], for [pos <= s.size()]. *)
Definition substr (s : list ascii) (pos : nat) : list ascii := skipn pos s.

(** [s.substr(0, count)] with [count] a [size_t]: at most the whole
    string. *)
Definition substr_to (s : list ascii) (count : N) : list ascii :=
  firstn (N.to_nat (N.min count (N.of_nat (List.length s)))) s.

(** [s.erase(pos)] (to the end) and [s.erase(0, count)]. *)
Definition erase_from (s : list ascii) (pos : nat) : list ascii :=
  firstn pos s.

Definition erase_front (s : list ascii) (count : nat) : list ascii :=
  skipn count s.

(** [s.replace(pos, len, str)], for [pos <= s.size()]. *)
Definition replace (s : list ascii) (pos len : nat) (str : list ascii)
  : list ascii :=
  firstn pos s ++ str ++ skipn (pos + len) s.

(** [a - b] on [size_t], wrapping around modulo 2^64. *)
Definition size_sub (a b : nat) : N :=
  ((18446744073709551616 + N.of_nat a - N.of_nat b)
   mod 18446744073709551616)%N.

(** [pos + 1] on [size_t]: [npos + 1] wraps around to 0. *)
Definition size_succ (pos : option nat) : nat :=
  match pos with
  | Some i => S i
  | None => 0%nat
  end.

End StdString.

(** The characters the helpers name. *)
Definition kPathSeparatorWindows : ascii := "092"%char.
Definition kPathSeparatorUnix : ascii := "/"%char.
Definition kExtensionSeparator : ascii := "."%char.
Definition kPathSeparatorsAll : list ascii :=
  [kPathSeparatorWindows; kPathSeparatorUnix].

(** Whether [c] is one of [kPathSeparatorsAll]. *)
Definition is_separator (c : ascii) : bool :=
  StdString.mem c kPathSeparatorsAll.

(** [" \t\r\n"] *)
Definition whiteSpaceCharacters : list ascii :=
  [" "; "009"; "013"; "010"]%char.

(** [Trim] edits its argument in place; the model returns the new value. *)
Definition Trim (a : list ascii) (trim_char : list ascii) : list ascii :=
  match StdString.find_last_not_of a trim_char with
  | Some pos =>
      let a := StdString.erase_from a (pos + 1) in
      match StdString.find_first_not_of a trim_char with
      | Some pos => StdString.erase_front a pos
      | None => a
      end
  | None => []
  end.

(** A [std::stringstream] read with [getline]: the characters not yet
    extracted and the two state bits the loop of [SplitString] can see. *)
Record stringstream : Type := mkStringstream {
  ss_pending : list ascii;
  ss_eofbit : bool;
  ss_failbit : bool
}.

Definition good (ss : stringstream) : bool :=
  negb (ss_eofbit ss) && negb (ss_failbit ss).

(** The characters up to the first [delim], and what follows that [delim]
    if there is one. *)
Fixpoint getline_scan (pending : list ascii) (delim : ascii)
  : list ascii * option (list ascii) :=
  match pending with
  | [] => ([], None)
  | c :: rest =>
      if Ascii.eqb c delim then ([], Some rest)
      else let (line, after) := getline_scan rest delim in (c :: line, after)
  end.

(** [std::getline(ss, str, delim)]: on a stream that is not good, sets
    [failbit] and leaves [str]; otherwise clears [str] and extracts up to
    and including the next [delim], which is dropped; reaching the end of
    the input sets [eofbit], and [failbit] too if nothing was extracted. *)
Definition getline (ss : stringstream) (str : list ascii) (delim : ascii)
  : stringstream * list ascii :=
  if negb (good ss)
  then (mkStringstream (ss_pending ss) (ss_eofbit ss) true, str)
  else
    match getline_scan (ss_pending ss) delim with
    | (line, Some rest) =>
        (mkStringstream rest (ss_eofbit ss) (ss_failbit ss), line)
    | (line, None) =>
        (mkStringstream [] true
           (match line with [] => true | _ => ss_failbit ss end), line)
    end.

(** The [while (ss.good())] loop of [SplitString]; [substr] is handed on
    empty after [std::move]. [None]: out of fuel. *)
Fixpoint SplitString_loop (fuel : nat) (delim : ascii) (ss : stringstream)
    (substr : list ascii) (output : list (list ascii))
  : option (list (list ascii)) :=
  match fuel with
  | O => None
  | S fuel' =>
      if good ss then
        let (ss', substr') := getline ss substr delim in
        SplitString_loop fuel' delim ss' [] (output ++ [substr'])
      else Some output
  end.

Definition SplitString (str : list ascii) (delim : ascii)
  : option (list (list ascii)) :=
  SplitString_loop (List.length str + 2) delim
    (mkStringstream str false false) [] [].

(** The pieces of [pending] between its occurrences of [delim], and the
    pieces put together again with [delim] between them: what the
    properties of [SplitString] are stated with. *)
Fixpoint pieces_of (delim : ascii) (pending : list ascii)
  : list (list ascii) :=
  match pending with
  | [] => [[]]
  | c :: rest =>
      if Ascii.eqb c delim then [] :: pieces_of delim rest
      else match pieces_of delim rest with
           | piece :: more => (c :: piece) :: more
           | [] => [[c]]
           end
  end.

Fixpoint join (delim : ascii) (pieces : list (list ascii)) : list ascii :=
  match pieces with
  | [] => []
  | [piece] => piece
  | piece :: more => piece ++ delim :: join delim more
  end.

Definition GetFileName (filePath : list ascii) : list ascii :=
  match StdString.find_last_of filePath kPathSeparatorsAll with
  | None => filePath
  | Some index => StdString.substr filePath (index + 1)
  end.

Definition GetFileExtension (filePath : list ascii) : list ascii :=
  let fileName := GetFileName filePath in
  match StdString.rfind fileName kExtensionSeparator with
  | None => []
  | Some index => StdString.substr fileName index
  end.

(** [std::tolower] in the C locale, the one the sample runs in. *)
Definition tolower (c : ascii) : ascii :=
  let n := nat_of_ascii c in
  if (65 <=? n)%nat && (n <=? 90)%nat then ascii_of_nat (n + 32) else c.

(** The [for] loop of [EqualsIgnoreCase] over the indices of two strings
    of one size. *)
Fixpoint EqualsIgnoreCase_loop (a b : list ascii) : bool :=
  match a, b with
  | x :: a', y :: b' =>
      if negb (Ascii.eqb (tolower x) (tolower y)) then false
      else EqualsIgnoreCase_loop a' b'
  | _, _ => true
  end.

Definition EqualsIgnoreCase (a b : list ascii) : bool :=
  let size := List.length a in
  if negb (List.length b =? size)%nat then false
  else EqualsIgnoreCase_loop a b.

(** [CreateOutput], as a function of the name
    [fileHandler->GetOutputFileName()] returns. *)
Definition CreateOutput (outputFileName : list ascii) : list ascii :=
  let fileExtension := GetFileExtension outputFileName in
  let outputFileNameWithoutExtension :=
    StdString.substr_to outputFileName
      (StdString.size_sub (List.length outputFileName)
         (List.length fileExtension)) in
  let '(fileExtension, outputFileNameWithoutExtension) :=
    if EqualsIgnoreCase fileExtension (list_ascii_of_string ".pfile")
    then
      let fileExtension :=
        GetFileExtension outputFileNameWithoutExtension ++ fileExtension in
      (fileExtension,
       StdString.substr_to outputFileName
         (StdString.size_sub (List.length outputFileName)
            (List.length fileExtension)))
    else (fileExtension, outputFileNameWithoutExtension) in
  outputFileNameWithoutExtension ++ list_ascii_of_string "_modified"
  ++ fileExtension.

(** [PathSeparator], by whether [_WIN32] is defined. *)
Definition PathSeparator (win32 : bool) : ascii :=
  if win32 then kPathSeparatorWindows else kPathSeparatorUnix.

Definition GetDirFromPath (win32 : bool) (fileSamplePath : list ascii)
  : list ascii :=
  match fileSamplePath with
  | [] => []
  | _ =>
      let position := StdString.rfind fileSamplePath (PathSeparator win32) in
      StdString.substr_to fileSamplePath
        (N.of_nat (StdString.size_succ position))
  end.

Definition CombinePaths (win32 : bool) (folder relativePath : list ascii)
  : list ascii :=
  match folder with
  | [] => relativePath
  | _ =>
      let result := folder in
      let result :=
        if negb (Ascii.eqb
                   (nth (List.length result - 1) result Ascii.zero)
                   (PathSeparator win32))
        then result ++ [PathSeparator win32]
        else result in
      result ++ relativePath
  end.

(** The two [while] loops of [escapeJsonString]. [None]: out of fuel. *)
Fixpoint escape_backslashes (fuel : nat) (output : list ascii) (pos : nat)
  : option (list ascii) :=
  match fuel with
  | O => None
  | S fuel' =>
      match StdString.find_from output "092"%char pos with
      | Some pos =>
          escape_backslashes fuel'
            (StdString.replace output pos 1 ["092"; "092"]%char) (pos + 2)
      | None => Some output
      end
  end.

Fixpoint escape_quotes (fuel : nat) (output : list ascii) (pos : nat)
  : option (list ascii) :=
  match fuel with
  | O => None
  | S fuel' =>
      match StdString.find_from output "034"%char pos with
      | Some pos =>
          if (pos =? 0)%nat
             || negb (Ascii.eqb (nth (pos - 1) output Ascii.zero) "092"%char)
          then escape_quotes fuel'
                 (StdString.replace output pos 1 ["092"; "034"]%char) (pos + 2)
          else escape_quotes fuel' output (pos + 1)
      | None => Some output
      end
  end.

Definition escapeJsonString (input : list ascii) : option (list ascii) :=
  match escape_backslashes (List.length input + 1) input 0 with
  | Some output => escape_quotes (List.length output + 1) output 0
  | None => None
  end.

(** What the two loops of [escapeJsonString] compute, as functions of the
    text: each backslash doubled; then a backslash put before each quote
    that does not directly follow a backslash. Used to state and prove the
    properties of [escapeJsonString]. *)
Definition backslash_doubled (c : ascii) : list ascii :=
  if Ascii.eqb c "092"%char then ["092"; "092"]%char else [c].

Fixpoint quotes_escaped (after_backslash : bool) (s : list ascii)
  : list ascii :=
  match s with
  | [] => []
  | c :: rest =>
      (if Ascii.eqb c "034"%char && negb after_backslash
       then ["092"%char; c] else [c])
      ++ quotes_escaped (Ascii.eqb c "092"%char) rest
  end.

(** Whether a text ends in a backslash. *)
Definition ends_in_backslash (s : list ascii) : bool :=
  Ascii.eqb (last s Ascii.zero) "092"%char.

(** * The error base class ([include/mip/error.h])

    The data members of [mip::Error] and its member functions with a body
    in the header: the two constructors, [what], [GetErrorType],
    [GetErrorName], [GetMessage], [SetMessage], [AddDebugInfo],
    [GetDebugInfo] and the private [CreateFormattedMessage].

    The member [std::map<std::string, std::string>] of debug entries is a
    list of key-value pairs with one pair a key; a map passed to the
    five-argument constructor is the list of its entries in the order the
    constructor's loop visits them.

    A [const std::string&] parameter is a [string_ref]: [GetMessage]
    hands out references to the object's own strings, so an argument may
    be one of the strings the call assigns to, and is then read as it is
    at each use. *)

Module MipError.

Inductive ErrorType : Type :=
| BAD_INPUT_ERROR
| INSUFFICIENT_BUFFER_ERROR
| FILE_IO_ERROR
| NETWORK_ERROR
| INTERNAL_ERROR
| JUSTIFICATION_REQUIRED
| NOT_SUPPORTED_OPERATION
| PRIVILEGED_REQUIRED
| ACCESS_DENIED
| CONSENT_DENIED
| NO_PERMISSIONS
| NO_AUTH_TOKEN
| DISABLED_SERVICE
| PROXY_AUTH_ERROR
| NO_POLICY
| OPERATION_CANCELLED
| ADHOC_PROTECTION_REQUIRED
| DEPRECATED_API
| TEMPLATE_NOT_FOUND
| LABEL_NOT_FOUND
| LABEL_DISABLED
| DOUBLE_KEY_DISABLED
| LICENSE_NOT_REGISTERED
| CONTENT_FORMAT_NOT_SUPPORTED
| TEMPLATE_ARCHIVED
| CUSTOMER_KEY_UNAVAILABLE
| DELEGATE_RESPONSE
| COUNT.

Record Error : Type := mkError {
  mMessage : list ascii;
  mDebugInfo : list (list ascii * list ascii);
  mName : list ascii;
  mType : ErrorType;
  mFormattedMessage : list ascii;
  mMaskedMessage : list ascii
}.

Definition string_eqb (a b : list ascii) : bool :=
  if list_eq_dec ascii_dec a b then true else false.

(** [m[key] = value] on a [std::map]. *)
Fixpoint map_assign (key value : list ascii)
    (m : list (list ascii * list ascii)) : list (list ascii * list ascii) :=
  match m with
  | [] => [(key, value)]
  | (k, v) :: m' =>
      if string_eqb k key then (k, value) :: m'
      else (k, v) :: map_assign key value m'
  end.

(** The lambda [isNewlineFn]. *)
Definition isNewlineFn (c : ascii) : bool :=
  Ascii.eqb c "010"%char || Ascii.eqb c "013"%char.

(** [erase(remove_if(begin, end, isNewlineFn), end)] keeps, in order, the
    characters that are not newlines. *)
Definition CreateFormattedMessage (message : list ascii) : list ascii :=
  filter (fun c => negb (isNewlineFn c)) message.

(** [Error(message, name, type)] *)
Definition Error_new (message name : list ascii) (type : ErrorType) : Error :=
  let formatted := CreateFormattedMessage message in
  {| mMessage := message;
     mDebugInfo := [];
     mName := name;
     mType := type;
     mFormattedMessage := formatted;
     mMaskedMessage := formatted |}.

(** The C string a [char const*] obtained from [c_str()] denotes: the
    characters before the first NUL. *)
Fixpoint c_str (s : list ascii) : list ascii :=
  match s with
  | [] => []
  | c :: s' => if Ascii.eqb c Ascii.zero then [] else c :: c_str s'
  end.

Definition what (e : Error) : list ascii := c_str (mFormattedMessage e).

Definition GetErrorType (e : Error) : ErrorType := mType e.

Definition GetErrorName (e : Error) : list ascii := mName e.

Definition GetMessage (e : Error) (maskPII : bool) : list ascii :=
  if maskPII then mMaskedMessage e else mFormattedMessage e.

Definition GetDebugInfo (e : Error) : list (list ascii * list ascii) :=
  mDebugInfo e.

(** A [const std::string&] argument: a string the call leaves as it is
    (the caller's own, the error's name, an entry of the debug map), or
    one of the three strings of the error that [SetMessage] and
    [AddDebugInfo] assign to. *)
Inductive string_ref : Type :=
| ref_to (s : list ascii)
| ref_mMessage
| ref_mFormattedMessage
| ref_mMaskedMessage.

Definition deref (e : Error) (r : string_ref) : list ascii :=
  match r with
  | ref_to s => s
  | ref_mMessage => mMessage e
  | ref_mFormattedMessage => mFormattedMessage e
  | ref_mMaskedMessage => mMaskedMessage e
  end.

(** Assignments to one member. *)
Definition set_mMessage (e : Error) (s : list ascii) : Error :=
  mkError s (mDebugInfo e) (mName e) (mType e)
    (mFormattedMessage e) (mMaskedMessage e).

Definition set_mFormattedMessage (e : Error) (s : list ascii) : Error :=
  mkError (mMessage e) (mDebugInfo e) (mName e) (mType e)
    s (mMaskedMessage e).

Definition set_mMaskedMessage (e : Error) (s : list ascii) : Error :=
  mkError (mMessage e) (mDebugInfo e) (mName e) (mType e)
    (mFormattedMessage e) s.

Definition set_mDebugInfo (e : Error) (m : list (list ascii * list ascii))
  : Error :=
  mkError (mMessage e) m (mName e) (mType e)
    (mFormattedMessage e) (mMaskedMessage e).

(** The body of the loop of [SetMessage], for one target string; [msg] is
    the value of the argument when [replace] is called ([replace] with the
    target itself as argument inserts the value the target had). *)
Definition SetMessage_target (old msg targetString : list ascii)
  : list ascii :=
  match StdString.find targetString old with
  | Some pos => StdString.replace targetString pos (List.length old) msg
  | None => StdString.replace targetString 0 0 msg
  end.

(** The loop runs on [mFormattedMessage], then on [mMaskedMessage]; then
    [mMessage = msg]. *)
Definition SetMessage (e : Error) (msg : string_ref) : Error :=
  let e :=
    set_mFormattedMessage e
      (SetMessage_target (mMessage e) (deref e msg) (mFormattedMessage e)) in
  let e :=
    set_mMaskedMessage e
      (SetMessage_target (mMessage e) (deref e msg) (mMaskedMessage e)) in
  set_mMessage e (deref e msg).

Definition is_empty (s : list ascii) : bool :=
  match s with [] => true | _ => false end.

(** The three assignments in their order, each reading [key] and [value]
    as they are when it runs. *)
Definition AddDebugInfo (e : Error) (key value : string_ref)
    (sensitive : bool) : Error :=
  if negb (is_empty (deref e key)) && negb (is_empty (deref e value))
  then
    let e :=
      set_mDebugInfo e
        (map_assign (deref e key) (deref e value) (mDebugInfo e)) in
    let e :=
      set_mFormattedMessage e
        (mFormattedMessage e ++ list_ascii_of_string ", " ++ deref e key
         ++ list_ascii_of_string "=" ++ deref e value) in
    set_mMaskedMessage e
      (mMaskedMessage e ++ list_ascii_of_string ", " ++ deref e key
       ++ list_ascii_of_string "="
       ++ (if sensitive then list_ascii_of_string "***"
           else deref e value))
  else e.

(** [Error(message, debugInfo, sensitiveDebugInfo, name, type)]: the
    sensitive entries are added first, then the others. *)
Definition Error_new_with_debug_info (message : list ascii)
    (debugInfo sensitiveDebugInfo : list (list ascii * list ascii))
    (name : list ascii) (type : ErrorType) : Error :=
  let e := Error_new message name type in
  let e :=
    fold_left
      (fun e entry => AddDebugInfo e (ref_to (fst entry))
                        (ref_to (snd entry)) true)
      sensitiveDebugInfo e in
  fold_left
    (fun e entry => AddDebugInfo e (ref_to (fst entry))
                      (ref_to (snd entry)) false)
    debugInfo e.

(** What one debug entry adds to a rendering, its value shown or
    starred; nothing for an entry with an empty key or value. Used to
    state what the constructors render. *)
Definition debug_entry_text (shown : bool) (entry : list ascii * list ascii)
  : list ascii :=
  if negb (is_empty (fst entry)) && negb (is_empty (snd entry))
  then list_ascii_of_string ", " ++ fst entry ++ list_ascii_of_string "="
       ++ (if shown then snd entry else list_ascii_of_string "***")
  else [].

(** The message leads both renderings: what holds of an error whose text
    [SetMessage] can find at the front. *)
Definition message_leads (e : Error) : Prop :=
  exists details masked_details,
    mFormattedMessage e = mMessage e ++ details /\
    mMaskedMessage e = mMessage e ++ masked_details.

End MipError.

(** ** Facts on 64-bit arithmetic *)

Lemma Int64_in_range_iff z :
  Int64.in_range z = true <-> Int64.min <= z <= Int64.max.
Proof.
  unfold Int64.in_range. rewrite andb_true_iff, !Z.leb_le. tauto.
Qed.

Lemma Int64_add_fits a b :
  Int64.min <= a + b <= Int64.max -> Int64.add a b = Some (a + b).
Proof.
  intros H. unfold Int64.add. apply Int64_in_range_iff in H. now rewrite H.
Qed.

Lemma Int64_sub_fits a b :
  Int64.min <= a - b <= Int64.max -> Int64.sub a b = Some (a - b).
Proof.
  intros H. unfold Int64.sub. apply Int64_in_range_iff in H. now rewrite H.
Qed.

(** ** Lists as vectors: sizes of slices *)

Lemma Some_eq {A} (a b : A) : Some a = Some b -> a = b.
Proof. intros H. now injection H. Qed.

Lemma size_of_nonneg {A} (l : list A) : 0 <= size_of l.
Proof. unfold size_of. lia. Qed.

Lemma size_of_app {A} (l1 l2 : list A) :
  size_of (l1 ++ l2) = size_of l1 + size_of l2.
Proof. unfold size_of. rewrite length_app. lia. Qed.

Lemma size_of_firstn {A} (l : list A) (n : Z) :
  0 <= n <= size_of l -> size_of (firstn (Z.to_nat n) l) = n.
Proof. unfold size_of. intros H. rewrite length_firstn. lia. Qed.

Lemma size_of_skipn {A} (l : list A) (n : Z) :
  0 <= n <= size_of l -> size_of (skipn (Z.to_nat n) l) = size_of l - n.
Proof. unfold size_of. intros H. rewrite length_skipn. lia. Qed.

Lemma ptr_range_ok buffer n :
  0 <= n <= size_of buffer ->
  ptr_range buffer n = Some (firstn (Z.to_nat n) buffer).
Proof.
  intros [H1 H2]. unfold ptr_range.
  apply Z.leb_le in H1, H2. now rewrite H1, H2.
Qed.

Lemma vec_at_ok v i :
  0 <= i < size_of v -> vec_at v i = Some (skipn (Z.to_nat i) v).
Proof.
  intros [H1 H2]. unfold vec_at.
  apply Z.leb_le in H1. apply Z.ltb_lt in H2. now rewrite H1, H2.
Qed.

Lemma memcpy_ok dest src count :
  0 <= count -> count <= size_of src -> count <= size_of dest ->
  memcpy dest src count =
  Some (firstn (Z.to_nat count) src ++ skipn (Z.to_nat count) dest).
Proof.
  intros H1 H2 H3. unfold memcpy.
  apply Z.leb_le in H1, H2, H3. now rewrite H1, H2, H3.
Qed.

Lemma vec_insert_ok v pos src :
  0 <= pos <= size_of v ->
  vec_insert v pos src =
  Some (firstn (Z.to_nat pos) v ++ src ++ skipn (Z.to_nat pos) v).
Proof.
  intros [H1 H2]. unfold vec_insert.
  apply Z.leb_le in H1, H2. now rewrite H1, H2.
Qed.

Lemma vec_erase_ok v first last :
  0 <= first -> first <= last -> last <= size_of v ->
  vec_erase v first last =
  Some (firstn (Z.to_nat first) v ++ skipn (Z.to_nat last) v).
Proof.
  intros H1 H2 H3. unfold vec_erase.
  apply Z.leb_le in H1, H2, H3. now rewrite H1, H2, H3.
Qed.

(** ** What each member function computes on a well-formed state *)

Ltac open_valid H :=
  let T := fresh "Htyped" in
  let P := fresh "Hpos" in
  let L := fresh "Hlen" in
  destruct H as [T [P L]];
  unfold int64_typed in T; cbn [mBuffer mSize mPosition] in T, P, L.

Ltac run_monad :=
  unfold bind, get, defined, ret, throw, when,
    set_mBuffer, set_mSize, set_mPosition;
  cbn [mBuffer mSize mPosition negb].

Ltac int64_bounds := unfold Int64.min, Int64.max in *; lia.

(** Closed arithmetic side conditions on concrete states. *)
Ltac by_computation :=
  repeat split; vm_compute; first [reflexivity | discriminate].

Lemma Delete_nonpositive numBytes st :
  numBytes <= 0 -> Delete numBytes st = Returns 0 st.
Proof.
  intros H. unfold Delete.
  destruct (Z.leb_spec numBytes 0); [reflexivity | lia].
Qed.

Lemma Delete_run numBytes st :
  valid st -> 0 < numBytes ->
  let d := Z.min numBytes (mSize st - mPosition st) in
  Delete numBytes st =
  Returns d
    {| mBuffer := firstn (Z.to_nat (mPosition st)) (mBuffer st)
                  ++ skipn (Z.to_nat (mPosition st + d)) (mBuffer st);
       mSize := mSize st - d;
       mPosition := mPosition st |}.
Proof.
  destruct st as [buf s p]. intros Hv Hn d. open_valid Hv.
  cbn [mBuffer mSize mPosition] in d |- *.
  unfold Delete. destruct (Z.leb_spec numBytes 0); [lia |].
  run_monad. rewrite Int64_sub_fits by int64_bounds.
  assert (Hd : (if numBytes <=? s - p then numBytes else s - p) = d).
  { subst d. destruct (Z.leb_spec numBytes (s - p)); lia. }
  rewrite Hd. assert (0 <= d <= s - p) by (subst d; lia).
  destruct (Z.eqb_spec d 0) as [E | E]; run_monad.
  - rewrite E, Z.add_0_r, Z.sub_0_r, firstn_skipn. reflexivity.
  - rewrite Int64_add_fits by int64_bounds. run_monad.
    rewrite vec_erase_ok by lia.
    rewrite Int64_sub_fits by int64_bounds. reflexivity.
Qed.

Lemma Insert_nonpositive buffer bufferLength st :
  bufferLength <= 0 -> Insert buffer bufferLength st = Returns 0 st.
Proof.
  intros H. unfold Insert.
  destruct (Z.leb_spec bufferLength 0); [reflexivity | lia].
Qed.

Lemma Insert_overflow buffer bufferLength st :
  0 <= mSize st <= Int64.max ->
  0 < bufferLength -> Int64.max - mSize st < bufferLength ->
  Insert buffer bufferLength st = Throws overflow_error st.
Proof.
  intros Hs Hn Hov. unfold Insert.
  destruct (Z.leb_spec bufferLength 0); [lia |].
  run_monad. rewrite Int64_sub_fits by int64_bounds.
  destruct (Z.ltb_spec (Int64.max - mSize st) bufferLength); [reflexivity | lia].
Qed.

Lemma Insert_run buffer bufferLength st :
  valid st -> 0 < bufferLength -> bufferLength <= size_of buffer ->
  bufferLength <= Int64.max - mSize st ->
  Insert buffer bufferLength st =
  Returns bufferLength
    {| mBuffer := firstn (Z.to_nat (mPosition st)) (mBuffer st)
                  ++ firstn (Z.to_nat bufferLength) buffer
                  ++ skipn (Z.to_nat (mPosition st)) (mBuffer st);
       mSize := mSize st + bufferLength;
       mPosition := mPosition st + bufferLength |}.
Proof.
  destruct st as [buf s p]. intros Hv Hn Hb Hfit. open_valid Hv.
  cbn [mBuffer mSize mPosition] in Hfit |- *.
  unfold Insert. destruct (Z.leb_spec bufferLength 0); [lia |].
  run_monad. rewrite Int64_sub_fits by int64_bounds.
  destruct (Z.ltb_spec (Int64.max - s) bufferLength); [lia |].
  rewrite ptr_range_ok by lia. run_monad.
  rewrite vec_insert_ok by lia. run_monad.
  rewrite !Int64_add_fits by int64_bounds. reflexivity.
Qed.

Lemma Read_nonpositive buffer bufferLength st :
  bufferLength <= 0 -> Read buffer bufferLength st = Returns (0, buffer) st.
Proof.
  intros H. unfold Read.
  destruct (Z.leb_spec bufferLength 0); [reflexivity | lia].
Qed.

Lemma Read_run buffer bufferLength st :
  valid st -> 0 < bufferLength ->
  let k := Z.min bufferLength (mSize st - mPosition st) in
  k <= size_of buffer ->
  Read buffer bufferLength st =
  Returns (k, firstn (Z.to_nat k) (skipn (Z.to_nat (mPosition st)) (mBuffer st))
              ++ skipn (Z.to_nat k) buffer)
    {| mBuffer := mBuffer st;
       mSize := mSize st;
       mPosition := mPosition st + k |}.
Proof.
  destruct st as [buf s p]. intros Hv Hn k Hcap. open_valid Hv.
  cbn [mBuffer mSize mPosition] in k, Hcap |- *.
  unfold Read. destruct (Z.leb_spec bufferLength 0); [lia |].
  run_monad. rewrite Int64_sub_fits by int64_bounds.
  assert (Hk : (if bufferLength <=? s - p then bufferLength else s - p) = k).
  { subst k. destruct (Z.leb_spec bufferLength (s - p)); lia. }
  rewrite Hk. assert (0 <= k <= s - p) by (subst k; lia).
  destruct (Z.eqb_spec k 0) as [E | E]; run_monad.
  - rewrite E, Z.add_0_r. reflexivity.
  - rewrite vec_at_ok by lia. run_monad.
    rewrite memcpy_ok by (rewrite ?size_of_skipn; lia). run_monad.
    rewrite Int64_add_fits by int64_bounds. reflexivity.
Qed.

Lemma Read_general buffer bufferLength st :
  valid st ->
  let k := if bufferLength <=? 0 then 0
           else Z.min bufferLength (mSize st - mPosition st) in
  k <= size_of buffer ->
  Read buffer bufferLength st =
  Returns (k, firstn (Z.to_nat k)
                (skipn (Z.to_nat (mPosition st)) (mBuffer st))
              ++ skipn (Z.to_nat k) buffer)
    {| mBuffer := mBuffer st;
       mSize := mSize st;
       mPosition := mPosition st + k |}.
Proof.
  intros Hv k Hcap. subst k.
  destruct (Z.leb_spec bufferLength 0) as [HL | HL].
  - rewrite Read_nonpositive by assumption.
    rewrite Z.add_0_r. destruct st; reflexivity.
  - now apply Read_run.
Qed.

(** ** Validity is kept by the editing primitives *)

Lemma Delete_valid numBytes st :
  valid st ->
  exists d st', Delete numBytes st = Returns d st' /\ valid st'.
Proof.
  intros Hv. destruct (Z.le_gt_cases numBytes 0) as [Hn | Hn].
  - exists 0, st. split; [now apply Delete_nonpositive | assumption].
  - eexists _, _. split; [now apply Delete_run |].
    destruct st as [buf s p]. open_valid Hv.
    cbn [mBuffer mSize mPosition].
    set (d := Z.min numBytes (s - p)).
    assert (0 <= d <= s - p) by (subst d; lia).
    repeat split; cbn [mBuffer mSize mPosition]; try int64_bounds.
    rewrite size_of_app, size_of_firstn, size_of_skipn by lia. lia.
Qed.

Lemma Insert_valid buffer bufferLength st :
  valid st -> bufferLength <= size_of buffer ->
  (exists st', Insert buffer bufferLength st = Returns (Z.max 0 bufferLength) st'
               /\ valid st')
  \/ Insert buffer bufferLength st = Throws overflow_error st.
Proof.
  intros Hv Hb. destruct (Z.le_gt_cases bufferLength 0) as [Hn | Hn].
  - left. exists st. rewrite Z.max_l by lia.
    split; [now apply Insert_nonpositive | assumption].
  - destruct (Z.lt_ge_cases (Int64.max - mSize st) bufferLength) as [Hov | Hfit].
    + right. apply Insert_overflow; try assumption.
      destruct Hv as [[? ?] [? ?]]. lia.
    + left. eexists. rewrite Z.max_r by lia.
      split; [now apply Insert_run |].
      destruct st as [buf s p]. open_valid Hv.
      cbn [mBuffer mSize mPosition] in Hfit |- *.
      repeat split; cbn [mBuffer mSize mPosition]; try int64_bounds.
      rewrite !size_of_app, !size_of_firstn, size_of_skipn by lia. lia.
Qed.

(** ** Update in closed form *)

Lemma firstn_of_prefix {A} (l rest : list A) (n : nat) :
  (n <= List.length l)%nat ->
  firstn n (firstn n l ++ rest) = firstn n l.
Proof.
  intros H. rewrite firstn_app, firstn_firstn, Nat.min_id.
  rewrite length_firstn, Nat.min_l by assumption.
  rewrite Nat.sub_diag. cbn [firstn]. apply app_nil_r.
Qed.

Lemma skipn_of_prefix {A} (l rest : list A) (n : nat) :
  (n <= List.length l)%nat ->
  skipn n (firstn n l ++ rest) = rest.
Proof.
  intros H. rewrite skipn_app.
  rewrite length_firstn, Nat.min_l by assumption.
  rewrite Nat.sub_diag, skipn_all2; [reflexivity |].
  rewrite length_firstn. apply Nat.le_min_l.
Qed.

(** Replacing [r > 0] bytes by [n > 0] bytes, of equal number or not: the
    [d = min r (size - position)] bytes at the cursor give way to the [n]
    bytes of the caller, and the cursor ends behind them. *)
Lemma Update_run B n r st :
  valid st -> 0 < r -> 0 < n -> n <= size_of B ->
  mSize st - Z.min r (mSize st - mPosition st) + n <= Int64.max ->
  Update B n r st =
  Returns n
    {| mBuffer :=
         firstn (Z.to_nat (mPosition st)) (mBuffer st)
         ++ firstn (Z.to_nat n) B
         ++ skipn (Z.to_nat (mPosition st
                             + Z.min r (mSize st - mPosition st)))
              (mBuffer st);
       mSize := mSize st - Z.min r (mSize st - mPosition st) + n;
       mPosition := mPosition st + n |}.
Proof.
  intros Hv Hr Hn HB Hfit.
  destruct (Delete_valid r st Hv) as (d & st1 & Hd & Hv1).
  unfold Update, bind. rewrite Hd.
  rewrite Delete_run in Hd by assumption.
  injection Hd as <- <-. rewrite Insert_run; try assumption.
  - cbn [mBuffer mSize mPosition].
    assert (Hp : (Z.to_nat (mPosition st) <= List.length (mBuffer st))%nat).
    { destruct Hv as [_ [? Hl]]. unfold size_of in Hl. lia. }
    now rewrite firstn_of_prefix, skipn_of_prefix.
  - cbn [mSize]. lia.
Qed.

(** ** Update, Write *)

(** C1. On every state and for all arguments [B], [n], [r] (equal or not),
    [Update B n r] has the outcome of [Delete r] followed by [Insert B n]:
    the same buffer, size, position and result, also when the insertion
    throws. On a well-formed state the deletion returns, leaving a
    well-formed state [st1], and [Update] is exactly [Insert B n] run on
    [st1], so it returns what that [Insert] returns. *)
Theorem Update_is_Delete_then_Insert B n r st :
  Update B n r st = Delete_then_Insert B n r st /\
  (valid st ->
   exists d st1,
     Delete r st = Returns d st1 /\ valid st1 /\
     Update B n r st = Insert B n st1).
Proof.
  split; [reflexivity |].
  intros Hv. destruct (Delete_valid r st Hv) as (d & st1 & Hd & Hv1).
  exists d, st1. split; [assumption | split; [assumption |]].
  unfold Update, bind. now rewrite Hd.
Qed.

Lemma Update_is_Delete_then_Insert_witness :
  let st := EditableStreamOverBuffer [x01; x02; x03; x04; x05] in
  exists d st1,
    Delete 2 st = Returns d st1 /\ valid st1 /\
    Update [xff] 1 2 st = Insert [xff] 1 st1.
Proof.
  intros st.
  apply (proj2 (Update_is_Delete_then_Insert [xff] 1 2 st)).
  by_computation.
Defined.

(** C5. [Write B n] is [Update B n n]: same buffer, size, position and
    result on every state, for every [B] and [n]. *)
Theorem Write_is_Update B n st :
  Write B n st = Update B n n st.
Proof. reflexivity. Qed.

(** ** Insert, Delete, Read *)

(** C2. From a well-formed state with position [p] and size [s], for
    [n > 0] with [s + n] within the signed 64-bit range and a caller array
    holding the [n] bytes, [Insert B n] returns [n]; the new buffer is the
    old content before [p], then the [n] bytes of [B], then the old content
    from [p] on; the size is [s + n] and the position [p + n]. *)
Theorem Insert_splices B n st :
  valid st -> 0 < n -> n <= size_of B ->
  mSize st + n <= Int64.max ->
  Insert B n st =
  Returns n
    {| mBuffer := firstn (Z.to_nat (mPosition st)) (mBuffer st)
                  ++ firstn (Z.to_nat n) B
                  ++ skipn (Z.to_nat (mPosition st)) (mBuffer st);
       mSize := mSize st + n;
       mPosition := mPosition st + n |}.
Proof.
  intros Hv Hn HB Hfit. apply Insert_run; try assumption. lia.
Qed.

Lemma Insert_splices_witness :
  Insert [xaa; xbb] 2
    {| mBuffer := [x01; x02; x03; x04; x05]; mSize := 5; mPosition := 4 |} =
  Returns 2
    {| mBuffer := [x01; x02; x03; x04; xaa; xbb; x05];
       mSize := 7; mPosition := 6 |}.
Proof.
  apply (Insert_splices [xaa; xbb] 2
           {| mBuffer := [x01; x02; x03; x04; x05];
              mSize := 5; mPosition := 4 |}).
  all: by_computation.
Defined.

(** C3. From a well-formed state with position [p] and size [s], for
    [n > 0], [Delete n] returns [d = min n (s - p)]; the new buffer is the
    old one without the [d] bytes at offsets [p .. p + d - 1]; the size is
    [s - d] and the position is still [p]. *)
Theorem Delete_removes n st :
  valid st -> 0 < n ->
  Delete n st =
  Returns (Z.min n (mSize st - mPosition st))
    {| mBuffer :=
         firstn (Z.to_nat (mPosition st)) (mBuffer st)
         ++ skipn (Z.to_nat (mPosition st
                             + Z.min n (mSize st - mPosition st)))
                  (mBuffer st);
       mSize := mSize st - Z.min n (mSize st - mPosition st);
       mPosition := mPosition st |}.
Proof.
  intros Hv Hn. now apply Delete_run.
Qed.

Lemma Delete_removes_witness :
  Delete 2 (EditableStreamOverBuffer [x01; x02; x03; x04; x05]) =
  Returns 2 {| mBuffer := [x03; x04; x05]; mSize := 3; mPosition := 0 |}.
Proof.
  apply (Delete_removes 2 (EditableStreamOverBuffer [x01; x02; x03; x04; x05])).
  all: by_computation.
Defined.

(** C4. From a well-formed state with position [p] and size [s], for every
    length [L] and a caller array with room for the bytes copied,
    [Read dst L] copies [k] bytes, the content at offsets [p .. p + k - 1],
    to the front of the caller's array, moves the position to [p + k] and
    returns [k], where [k] is [min L (s - p)] for a positive [L] and 0 for
    [L <= 0]; buffer content and size stay as they were. When [L <= 0] or
    [p = s] it returns 0 and changes nothing. *)
Theorem Read_copies dst L st :
  valid st ->
  let k := if L <=? 0 then 0 else Z.min L (mSize st - mPosition st) in
  k <= size_of dst ->
  Read dst L st =
    Returns (k, firstn (Z.to_nat k)
                  (skipn (Z.to_nat (mPosition st)) (mBuffer st))
                ++ skipn (Z.to_nat k) dst)
      {| mBuffer := mBuffer st;
         mSize := mSize st;
         mPosition := mPosition st + k |}
  /\ (L <= 0 \/ mPosition st = mSize st -> Read dst L st = Returns (0, dst) st).
Proof.
  intros Hv k Hcap.
  assert (Hrange : 0 <= mPosition st <= mSize st) by apply Hv.
  pose proof (Read_general dst L st Hv Hcap) as Hgen. fold k in Hgen.
  split; [exact Hgen |].
  intros H0. rewrite Hgen.
  assert (Hk : k = 0).
  { subst k. destruct (Z.leb_spec L 0); lia. }
  rewrite Hk, Z.add_0_r. destruct st; reflexivity.
Qed.

Lemma Read_copies_witness :
  Read [x00; x00; x00; x00] 4
    (EditableStreamOverBuffer [x01; x02; x03; x04; x05]) =
  Returns (4, [x01; x02; x03; x04])
    {| mBuffer := [x01; x02; x03; x04; x05]; mSize := 5; mPosition := 4 |}.
Proof.
  apply (proj1 (Read_copies [x00; x00; x00; x00] 4
                  (EditableStreamOverBuffer [x01; x02; x03; x04; x05])
                  ltac:(by_computation) ltac:(by_computation))).
Defined.

(** ** Seek *)

Lemma Seek_cases p st :
  (p < 0 /\ Seek p st = Throws seek_negative_error st) \/
  (mSize st < p /\ 0 <= p /\ Seek p st = Throws seek_beyond_error st) \/
  (0 <= p <= mSize st /\
   Seek p st =
   Returns tt {| mBuffer := mBuffer st; mSize := mSize st; mPosition := p |}).
Proof.
  unfold Seek. destruct (Z.ltb_spec p 0) as [Hneg | Hnn].
  - left. now split.
  - right. run_monad. rewrite Z.gtb_ltb.
    destruct (Z.ltb_spec (mSize st) p) as [Hbig | Hok].
    + left. now repeat split.
    + right. split; [lia | reflexivity].
Qed.

(** C6. [Seek p] throws exactly when [p < 0] or [p > size] (so [Seek (-1)]
    and [Seek (size + 1)] throw); the exception is the [runtime_error] of
    the violated bound and the state is the one before the call. For
    [0 <= p <= size] it returns, the state differs only in the position,
    now [p], and [Position] called next returns [p]. *)
Theorem Seek_range p st :
  ((exists e st', Seek p st = Throws e st') <-> (p < 0 \/ p > mSize st)) /\
  (forall e st', Seek p st = Throws e st' ->
     st' = st /\ (e = seek_negative_error \/ e = seek_beyond_error)) /\
  (exists e, Seek (-1) st = Throws e st) /\
  (exists e, Seek (mSize st + 1) st = Throws e st) /\
  (0 <= p <= mSize st ->
     Seek p st =
       Returns tt
         {| mBuffer := mBuffer st; mSize := mSize st; mPosition := p |} /\
     (Seek p ;;; Position) st =
       Returns p
         {| mBuffer := mBuffer st; mSize := mSize st; mPosition := p |}).
Proof.
  split; [| split; [| split; [| split]]].
  - split.
    + intros (e & st' & H).
      destruct (Seek_cases p st) as [[? ?] | [(? & ? & ?) | [? E]]]; try lia.
      rewrite E in H. discriminate.
    + intros H.
      destruct (Seek_cases p st) as [[? E] | [(? & ? & E) | [? ?]]]; try lia;
        eexists _, _; exact E.
  - intros e st' H.
    destruct (Seek_cases p st) as [[? E] | [(? & ? & E) | [? E]]];
      rewrite E in H; inversion H; auto.
  - destruct (Seek_cases (-1) st) as [[? E] | [(? & ? & E) | [? ?]]]; try lia;
      eexists; exact E.
  - destruct (Seek_cases (mSize st + 1) st)
      as [[? E] | [(? & ? & E) | [? ?]]]; try lia; eexists; exact E.
  - intros H.
    destruct (Seek_cases p st) as [[? ?] | [(? & ? & ?) | [? E]]]; try lia.
    split; [exact E |].
    unfold bind. rewrite E. reflexivity.
Qed.

Lemma Seek_range_witness :
  let st := EditableStreamOverBuffer [x01; x02; x03; x04; x05] in
  Seek 5 st =
    Returns tt {| mBuffer := mBuffer st; mSize := mSize st; mPosition := 5 |} /\
  (Seek 5 ;;; Position) st =
    Returns 5 {| mBuffer := mBuffer st; mSize := mSize st; mPosition := 5 |}.
Proof.
  intros st.
  apply (proj2 (proj2 (proj2 (proj2 (Seek_range 5 st))))).
  by_computation.
Defined.

(** ** The overflow error of Insert *)

Ltac case_defined :=
  match goal with
  | |- context [match ?o with Some _ => _ | None => _ end] =>
      destruct o; [| discriminate]; run_monad
  end.

(** On any state, the only throw of [Insert] is the overflow check, taken
    before anything is modified. *)
Lemma Insert_throws_inv B n st e st' :
  Insert B n st = Throws e st' ->
  st' = st /\ e = overflow_error /\ 0 < n /\
  exists room, Int64.sub Int64.max (mSize st) = Some room /\ room < n.
Proof.
  unfold Insert. destruct (Z.leb_spec n 0); [discriminate |].
  run_monad.
  destruct (Int64.sub Int64.max (mSize st)) as [room |] eqn:Er;
    [| discriminate].
  destruct (Z.ltb_spec room n).
  - intros E. inversion E; subst. repeat split; eauto.
  - repeat case_defined. discriminate.
Qed.

(** C8. On a well-formed state of size [s] and for [n > 0], [Insert B n]
    throws exactly when [Int64.max - s < n], that is when [s + n] is above
    the largest signed 64-bit value; it then throws the overflow
    [runtime_error]; for every smaller [n] it does not throw. *)
Theorem Insert_throws_iff_overflow B n st :
  valid st -> 0 < n ->
  ((exists e st', Insert B n st = Throws e st') <-> Int64.max - mSize st < n)
  /\ (Int64.max - mSize st < n <-> Int64.max < mSize st + n)
  /\ (Int64.max - mSize st < n -> Insert B n st = Throws overflow_error st)
  /\ (n <= Int64.max - mSize st ->
      forall e st', Insert B n st <> Throws e st').
Proof.
  intros Hv Hn.
  assert (Hs : 0 <= mSize st <= Int64.max).
  { destruct Hv as [[? ?] [? ?]]. lia. }
  assert (Hinv : forall e st', Insert B n st = Throws e st' ->
                               Int64.max - mSize st < n).
  { intros e st' H. apply Insert_throws_inv in H.
    destruct H as (_ & _ & _ & room & Er & Hlt).
    rewrite Int64_sub_fits in Er by int64_bounds.
    apply Some_eq in Er. subst room. exact Hlt. }
  split; [| split; [| split]].
  - split.
    + intros (e & st' & H). eauto.
    + intros H. exists overflow_error, st. now apply Insert_overflow.
  - lia.
  - intros H. now apply Insert_overflow.
  - intros H e st' E. apply Hinv in E. lia.
Qed.

Lemma Insert_throws_iff_overflow_witness :
  let st := EditableStreamOverBuffer [x01; x02; x03] in
  Insert [xff] (Int64.max - 2) st = Throws overflow_error st.
Proof.
  intros st.
  apply (proj1 (proj2 (proj2
           (Insert_throws_iff_overflow [xff] (Int64.max - 2) st
              ltac:(by_computation) ltac:(by_computation))))).
  by_computation.
Defined.

(** ** Which failures leave the state untouched *)

(** C10. When [Seek], the [Size(value)] setter or a directly called
    [Insert] throws, the state left behind is the state before the call.
    When [Update B n r] throws, the state left behind is the one
    [Delete r] produced: on a well-formed state with position [p] and size
    [s] and [r > 0], the [d = min r (s - p)] bytes at the cursor are gone
    and the size is [s - d]. There are calls of [Update] that throw and
    leave a state different from the one they started from. *)
Theorem error_atomicity :
  (forall p st e st', Seek p st = Throws e st' -> st' = st) /\
  (forall v st, Size_set v st = Throws (runtime_error "Not Implemented") st) /\
  (forall B n st e st', Insert B n st = Throws e st' -> st' = st) /\
  (forall B n r st e st',
     Update B n r st = Throws e st' ->
     e = overflow_error /\ exists d, Delete r st = Returns d st') /\
  (forall B n r st e st',
     valid st -> 0 < r ->
     Update B n r st = Throws e st' ->
     let d := Z.min r (mSize st - mPosition st) in
     st' = {| mBuffer := firstn (Z.to_nat (mPosition st)) (mBuffer st)
                         ++ skipn (Z.to_nat (mPosition st + d)) (mBuffer st);
              mSize := mSize st - d;
              mPosition := mPosition st |}) /\
  (exists B n r st e st',
     valid st /\ Update B n r st = Throws e st' /\ st' <> st).
Proof.
  assert (HU : forall B n r st e st',
     Update B n r st = Throws e st' ->
     e = overflow_error /\ exists d, Delete r st = Returns d st').
  { intros B n r st e st' H. unfold Update, bind in H.
    destruct (Delete r st) as [d st1 | e1 st1 |] eqn:Ed; try discriminate.
    - apply Insert_throws_inv in H. destruct H as (-> & -> & _).
      split; [reflexivity | now exists d].
    - exfalso. revert Ed. unfold Delete.
      destruct (Z.leb_spec r 0); [discriminate |]. run_monad.
      case_defined.
      match goal with
      | |- context [negb ?b] => destruct b; run_monad
      end; [discriminate |].
      repeat case_defined. discriminate. }
  split; [| split; [| split; [| split; [| split]]]].
  - intros p st e st' H.
    destruct (Seek_cases p st) as [[? E] | [(? & ? & E) | [? E]]];
      rewrite E in H; inversion H; reflexivity.
  - reflexivity.
  - intros B n st e st' H. now apply Insert_throws_inv in H.
  - exact HU.
  - intros B n r st e st' Hv Hr H d.
    apply HU in H. destruct H as (_ & d' & Hd).
    rewrite Delete_run in Hd by assumption. now inversion Hd.
  - exists [], Int64.max, 1, (EditableStreamOverBuffer [x01; x02; x03]).
    eexists _, _. split; [by_computation |].
    split; [vm_compute; reflexivity | discriminate].
Qed.

Lemma error_atomicity_witness :
  let st := EditableStreamOverBuffer [x01; x02; x03] in
  {| mBuffer := [x02; x03]; mSize := 2; mPosition := 0 |} =
  {| mBuffer := firstn (Z.to_nat (mPosition st)) (mBuffer st)
                ++ skipn (Z.to_nat (mPosition st
                                    + Z.min 1 (mSize st - mPosition st)))
                     (mBuffer st);
     mSize := mSize st - Z.min 1 (mSize st - mPosition st);
     mPosition := mPosition st |}.
Proof.
  intros st.
  apply (proj1 (proj2 (proj2 (proj2 (proj2 error_atomicity))))
           [] Int64.max 1 st overflow_error
           {| mBuffer := [x02; x03]; mSize := 2; mPosition := 0 |}).
  - by_computation.
  - by_computation.
  - vm_compute. reflexivity.
Defined.

(** ** Non-positive lengths *)

(** C7, as stated, fails: [Update] with a zero buffer length and a positive
    replace length returns 0 but has removed bytes. On the five-byte buffer
    at position 0, [Update B 0 2] leaves the three last bytes. *)
Lemma Update_nonpositive_not_noop :
  let st := EditableStreamOverBuffer [x01; x02; x03; x04; x05] in
  valid st /\ 0 <= 0 /\
  Update [] 0 2 st =
    Returns 0 {| mBuffer := [x03; x04; x05]; mSize := 3; mPosition := 0 |} /\
  Update [] 0 2 st <> Returns 0 st.
Proof.
  intros st. split; [by_computation |]. split; [lia |].
  split; [vm_compute; reflexivity | vm_compute; discriminate].
Qed.

(** C7, amended. With a non-positive length [n], [Read], [Write], [Insert]
    and [Delete] return 0, throw nothing and leave the state as it is, on
    every state. [Update B n r] with a non-positive [n] returns 0 and
    throws nothing, and leaves the state that [Delete r] leaves: the same
    state when [r] is non-positive too; on a well-formed state with
    [r > 0], the state with the [min r (size - position)] bytes at the
    cursor removed. *)
Theorem nonpositive_length_noop dst B n r st :
  n <= 0 ->
  Read dst n st = Returns (0, dst) st /\
  Write B n st = Returns 0 st /\
  Insert B n st = Returns 0 st /\
  Delete n st = Returns 0 st /\
  Update B n r st = (Delete r ;;; ret 0) st /\
  (r <= 0 -> Update B n r st = Returns 0 st) /\
  (valid st -> 0 < r ->
   let d := Z.min r (mSize st - mPosition st) in
   Update B n r st =
   Returns 0
     {| mBuffer := firstn (Z.to_nat (mPosition st)) (mBuffer st)
                   ++ skipn (Z.to_nat (mPosition st + d)) (mBuffer st);
        mSize := mSize st - d;
        mPosition := mPosition st |}).
Proof.
  intros Hn.
  assert (HU : Update B n r st = (Delete r ;;; ret 0) st).
  { unfold Update, bind. destruct (Delete r st); try reflexivity.
    now apply Insert_nonpositive. }
  split; [now apply Read_nonpositive |].
  split.
  { unfold Write, Update, bind.
    rewrite Delete_nonpositive by assumption. now apply Insert_nonpositive. }
  split; [now apply Insert_nonpositive |].
  split; [now apply Delete_nonpositive |].
  split; [exact HU |]. split.
  - intros Hr. rewrite HU. unfold bind.
    now rewrite Delete_nonpositive.
  - intros Hv Hr d. rewrite HU. unfold bind.
    now rewrite Delete_run.
Qed.

Lemma nonpositive_length_noop_witness :
  let st := EditableStreamOverBuffer [x01; x02; x03; x04; x05] in
  Update [] (-1) (-3) st = Returns 0 st /\
  Update [] (-1) 2 st =
    Returns 0 {| mBuffer := [x03; x04; x05]; mSize := 3; mPosition := 0 |}.
Proof.
  intros st. split.
  - apply (proj1 (proj2 (proj2 (proj2 (proj2 (proj2
             (nonpositive_length_noop [] [] (-1) (-3) st
                ltac:(by_computation)))))))).
    by_computation.
  - apply (proj2 (proj2 (proj2 (proj2 (proj2 (proj2
             (nonpositive_length_noop [] [] (-1) 2 st
                ltac:(by_computation)))))))).
    + by_computation.
    + by_computation.
Defined.

(** ** The invariant *)

Lemma Read_valid_general buffer bufferLength st :
  valid st ->
  (if bufferLength <=? 0 then 0
   else Z.min bufferLength (mSize st - mPosition st)) <= size_of buffer ->
  exists st', state_after (Read buffer bufferLength st) = Some st' /\ valid st'.
Proof.
  intros Hv Hcap.
  assert (Hp : 0 <= mPosition st <= mSize st) by apply Hv.
  rewrite Read_general by assumption.
  eexists. split; [reflexivity |].
  destruct st as [buf s p]. open_valid Hv.
  cbn [mBuffer mSize mPosition] in *.
  destruct (Z.leb_spec bufferLength 0);
    repeat split; cbn [mBuffer mSize mPosition]; try int64_bounds.
Qed.

Lemma Seek_valid position st :
  valid st -> exists st', state_after (Seek position st) = Some st' /\ valid st'.
Proof.
  intros Hv.
  destruct (Seek_cases position st) as [[? E] | [(? & ? & E) | [? E]]];
    rewrite E; eexists; (split; [reflexivity |]); try assumption.
  destruct st as [buf s p]. open_valid Hv.
  cbn [mBuffer mSize mPosition] in *.
  repeat split; cbn [mBuffer mSize mPosition]; try int64_bounds.
Qed.

(** *** Every outcome of a call *)

Lemma Insert_outcome B n st :
  valid st ->
  (n <= 0 /\ Insert B n st = Returns 0 st) \/
  (0 < n /\ Int64.max - mSize st < n /\
   Insert B n st = Throws overflow_error st) \/
  (0 < n /\ n <= Int64.max - mSize st /\ n <= size_of B /\
   Insert B n st =
   Returns n
     {| mBuffer := firstn (Z.to_nat (mPosition st)) (mBuffer st)
                   ++ firstn (Z.to_nat n) B
                   ++ skipn (Z.to_nat (mPosition st)) (mBuffer st);
        mSize := mSize st + n;
        mPosition := mPosition st + n |}) \/
  (0 < n /\ n <= Int64.max - mSize st /\ size_of B < n /\
   Insert B n st = Undefined).
Proof.
  intros Hv.
  assert (Hs : 0 <= mSize st <= Int64.max).
  { destruct Hv as [[? ?] [? ?]]. lia. }
  destruct (Z.le_gt_cases n 0) as [Hn | Hn].
  { left. split; [assumption | now apply Insert_nonpositive]. }
  right. destruct (Z.lt_ge_cases (Int64.max - mSize st) n) as [Hov | Hfit].
  { left. repeat split; try assumption. now apply Insert_overflow. }
  right. destruct (Z.le_gt_cases n (size_of B)) as [HB | HB].
  { left. repeat split; try assumption. now apply Insert_run. }
  right. repeat split; try assumption.
  unfold Insert. destruct (Z.leb_spec n 0); [lia |].
  run_monad. rewrite Int64_sub_fits by int64_bounds.
  destruct (Z.ltb_spec (Int64.max - mSize st) n); [lia |].
  unfold ptr_range.
  destruct (Z.leb_spec n (size_of B)); [lia |].
  now rewrite andb_false_r.
Qed.

Lemma Read_undefined dst L st :
  valid st -> 0 < L ->
  size_of dst < Z.min L (mSize st - mPosition st) ->
  Read dst L st = Undefined.
Proof.
  destruct st as [buf s p]. intros Hv HL Hcap. open_valid Hv.
  cbn [mBuffer mSize mPosition] in Hcap |- *.
  pose proof (size_of_nonneg dst) as Hnn.
  unfold Read. destruct (Z.leb_spec L 0); [lia |].
  run_monad. rewrite Int64_sub_fits by int64_bounds.
  set (k := if L <=? s - p then L else s - p).
  assert (Hk : k = Z.min L (s - p)).
  { subst k. destruct (Z.leb_spec L (s - p)); lia. }
  destruct (Z.eqb_spec k 0) as [E | E]; [lia |]. run_monad.
  rewrite vec_at_ok by lia. run_monad.
  unfold memcpy. destruct (Z.leb_spec k (size_of dst)); [lia |].
  now rewrite andb_false_r.
Qed.

Lemma Delete_outcome r st :
  valid st ->
  exists st1,
    Delete r st =
      Returns (Z.max 0 (Z.min r (mSize st - mPosition st))) st1 /\
    valid st1 /\
    mSize st1 = mSize st - Z.max 0 (Z.min r (mSize st - mPosition st)) /\
    mPosition st1 = mPosition st /\
    firstn (Z.to_nat (mPosition st)) (mBuffer st1) =
    firstn (Z.to_nat (mPosition st)) (mBuffer st).
Proof.
  intros Hv.
  assert (Hb : 0 <= mPosition st <= mSize st /\
               (Z.to_nat (mPosition st) <= List.length (mBuffer st))%nat).
  { destruct Hv as [_ [? Hl]]. unfold size_of in Hl. lia. }
  destruct (Z.le_gt_cases r 0) as [Hr | Hr].
  - exists st. rewrite Z.max_l by lia.
    rewrite Delete_nonpositive by assumption.
    repeat split; try apply Hv; lia.
  - destruct (Delete_valid r st Hv) as (d & st1 & E & Hv1).
    rewrite Delete_run in E by assumption. injection E as _ <-.
    eexists. rewrite Z.max_r by lia.
    split; [now apply Delete_run |]. split; [exact Hv1 |].
    cbn [mBuffer mSize mPosition]. repeat split.
    now apply firstn_of_prefix.
Qed.

(** On a well-formed state a call is defined exactly when the caller's
    array suffices, and it then leaves a well-formed state. *)
Lemma perform_outcome c st :
  valid st ->
  (caller_contract c st /\
   exists st', perform c st = Some st' /\ valid st') \/
  (~ caller_contract c st /\ perform c st = None).
Proof.
  intros Hv.
  assert (HI : forall B n st1,
    valid st1 ->
    ((0 < n -> n <= Int64.max - mSize st1 -> n <= size_of B) /\
     exists st', state_after (Insert B n st1) = Some st' /\ valid st') \/
    (~ (0 < n -> n <= Int64.max - mSize st1 -> n <= size_of B) /\
     state_after (Insert B n st1) = None)).
  { intros B n st1 Hv1.
    destruct (Insert_outcome B n st1 Hv1)
      as [(Hn & E) | [(Hn & Hov & E) | [(Hn & Hfit & HB & E)
                                       | (Hn & Hfit & HB & E)]]];
      rewrite E.
    - left. split; [lia |]. exists st1. split; [reflexivity | assumption].
    - left. split; [lia |]. exists st1. split; [reflexivity | assumption].
    - left. split; [lia |]. eexists. split; [reflexivity |].
      destruct (Insert_valid B n st1 Hv1 HB) as [(st' & E' & Hv') | E'];
        rewrite E in E'; [| discriminate].
      injection E' as _ <-. exact Hv'.
    - right. split; [lia | reflexivity]. }
  assert (HU : forall B n r,
    ((0 < n ->
      n <= Int64.max
           - (mSize st - Z.max 0 (Z.min r (mSize st - mPosition st))) ->
      n <= size_of B) /\
     exists st', state_after (Update B n r st) = Some st' /\ valid st') \/
    (~ (0 < n ->
        n <= Int64.max
             - (mSize st - Z.max 0 (Z.min r (mSize st - mPosition st))) ->
        n <= size_of B) /\
     state_after (Update B n r st) = None)).
  { intros B n r.
    destruct (Delete_outcome r st Hv) as (st1 & Hd & Hv1 & Hs1 & _).
    unfold Update, bind. rewrite Hd, <- Hs1. apply HI. exact Hv1. }
  destruct c; cbn [perform caller_contract].
  - destruct (Z.le_gt_cases bufferLength 0) as [HL | HL].
    + left. split; [lia |]. rewrite Read_nonpositive by assumption.
      exists st. split; [reflexivity | assumption].
    + destruct (Z.le_gt_cases
                  (Z.min bufferLength (mSize st - mPosition st))
                  (size_of buffer)) as [Hcap | Hcap].
      * left. split; [lia |].
        apply Read_valid_general; [assumption |].
        destruct (Z.leb_spec bufferLength 0); [lia | assumption].
      * right. split; [lia |]. rewrite Read_undefined by assumption.
        reflexivity.
  - apply HU.
  - apply HI. exact Hv.
  - left. split; [exact I |].
    destruct (Delete_valid numBytes st Hv) as (d & st' & E & Hv').
    rewrite E. exists st'. split; [reflexivity | assumption].
  - apply HU.
  - left. split; [exact I | apply Seek_valid; exact Hv].
  - left. split; [exact I |]. exists st. split; [reflexivity | assumption].
  - left. split; [exact I |]. exists st. split; [reflexivity | assumption].
  - left. split; [exact I |]. exists st. split; [reflexivity | assumption].
  - left. split; [exact I |]. exists st. split; [reflexivity | assumption].
Qed.

(** C9. The constructor, given a vector whose size fits [int64_t] (every
    vector's does), builds a state with that content, [mSize] its length
    and [mPosition] 0, which has the [int64_t] typing and satisfies the
    invariant [0 <= mPosition <= mSize], [mSize] = number of bytes of
    [mBuffer]. Every call of [Read], [Write], [Insert], [Delete], [Update],
    [Seek], [Flush], [Position], [Size] or the [Size] setter on a state with
    the typing and the invariant leaves, returning or throwing, a state
    with the typing and the invariant: this holds of every outcome the
    call has, and the call has one (its behaviour is defined) as soon as
    the caller's array holds the bytes the call touches, which asks
    nothing of a call that throws before it reads the array. *)
Theorem invariant_established_and_preserved :
  (forall buffer,
     size_of buffer <= Int64.max ->
     let st := EditableStreamOverBuffer buffer in
     mBuffer st = buffer /\ mSize st = size_of buffer /\ mPosition st = 0 /\
     int64_typed st /\ stream_inv st) /\
  (forall c st st',
     int64_typed st -> stream_inv st ->
     perform c st = Some st' ->
     int64_typed st' /\ stream_inv st') /\
  (forall c st,
     int64_typed st -> stream_inv st -> caller_contract c st ->
     exists st', perform c st = Some st' /\ int64_typed st' /\ stream_inv st') /\
  (forall B n r st,
     int64_typed st -> stream_inv st ->
     (forall e st', Insert B n st = Throws e st' ->
                    int64_typed st' /\ stream_inv st') /\
     (forall e st', Write B n st = Throws e st' ->
                    int64_typed st' /\ stream_inv st') /\
     (forall e st', Update B n r st = Throws e st' ->
                    int64_typed st' /\ stream_inv st') /\
     (forall position e st', Seek position st = Throws e st' ->
                    int64_typed st' /\ stream_inv st') /\
     (forall value e st', Size_set value st = Throws e st' ->
                    int64_typed st' /\ stream_inv st')).
Proof.
  assert (Hany : forall c st st',
     int64_typed st -> stream_inv st ->
     perform c st = Some st' -> valid st').
  { intros c st st' Ht Hi H.
    destruct (perform_outcome c st (conj Ht Hi))
      as [(_ & st2 & E & Hv2) | (_ & E)]; rewrite E in H;
      [| discriminate].
    injection H as <-. exact Hv2. }
  split; [| split; [| split]].
  - intros buffer Hfit st.
    assert (Hs : mSize st = size_of buffer).
    { subst st. cbn [mSize EditableStreamOverBuffer]. unfold Int64.of_uint64.
      destruct (Z.leb_spec (size_of buffer) Int64.max); [reflexivity | lia]. }
    pose proof (size_of_nonneg buffer).
    unfold int64_typed, stream_inv. rewrite Hs.
    subst st. cbn [mBuffer mPosition EditableStreamOverBuffer].
    repeat split; int64_bounds.
  - exact Hany.
  - intros c st Ht Hi Hc.
    destruct (perform_outcome c st (conj Ht Hi))
      as [(_ & st' & E & Hv') | (Hn & _)]; [| contradiction].
    exists st'. split; [exact E | exact Hv'].
  - intros B n r st Ht Hi.
    split; [| split; [| split; [| split]]].
    + intros e st' E.
      apply (Hany (call_Insert B n) st st' Ht Hi).
      cbn [perform]. rewrite E. reflexivity.
    + intros e st' E.
      apply (Hany (call_Write B n) st st' Ht Hi).
      cbn [perform]. rewrite E. reflexivity.
    + intros e st' E.
      apply (Hany (call_Update B n r) st st' Ht Hi).
      cbn [perform]. rewrite E. reflexivity.
    + intros position e st' E.
      apply (Hany (call_Seek position) st st' Ht Hi).
      cbn [perform]. rewrite E. reflexivity.
    + intros value e st' E.
      apply (Hany (call_Size_set value) st st' Ht Hi).
      cbn [perform]. rewrite E. reflexivity.
Qed.

Lemma invariant_established_and_preserved_witness :
  let st := EditableStreamOverBuffer [x01; x02; x03; x04; x05] in
  (int64_typed st /\ stream_inv st) /\
  (exists st',
     perform (call_Update [xff] 1 2) st = Some st' /\
     int64_typed st' /\ stream_inv st') /\
  (exists st',
     perform (call_Update [] Int64.max 1) st = Some st' /\
     int64_typed st' /\ stream_inv st') /\
  (int64_typed {| mBuffer := [x02; x03; x04; x05]; mSize := 4;
                  mPosition := 0 |} /\
   stream_inv {| mBuffer := [x02; x03; x04; x05]; mSize := 4;
                 mPosition := 0 |}).
Proof.
  intros st. split; [| split; [| split]].
  - apply (proj1 invariant_established_and_preserved
             [x01; x02; x03; x04; x05]).
    by_computation.
  - apply (proj1 (proj2 (proj2 invariant_established_and_preserved))
             (call_Update [xff] 1 2) st).
    + by_computation.
    + by_computation.
    + cbn [caller_contract]. intros _ _. by_computation.
  - apply (proj1 (proj2 (proj2 invariant_established_and_preserved))
             (call_Update [] Int64.max 1) st).
    + by_computation.
    + by_computation.
    + cbn [caller_contract]. intros _ H. exfalso. revert H.
      vm_compute. intros H. now apply H.
  - apply (proj1 (proj2 (proj2
             (proj2 (proj2 (proj2 invariant_established_and_preserved))
                [] Int64.max 1 st
                ltac:(by_computation) ltac:(by_computation))))
             overflow_error).
    vm_compute. reflexivity.
Defined.

(** ** The scenarios of the specification *)

Example scenario_Read_then_Insert :
  (Read [x00; x00; x00; x00] 4 ;;; Insert [xaa; xbb] 2)
    (EditableStreamOverBuffer [x01; x02; x03; x04; x05]) =
  Returns 2
    {| mBuffer := [x01; x02; x03; x04; xaa; xbb; x05];
       mSize := 7; mPosition := 6 |}.
Proof. vm_compute. reflexivity. Qed.

Example scenario_Delete :
  Delete 2 (EditableStreamOverBuffer [x01; x02; x03; x04; x05]) =
  Returns 2 {| mBuffer := [x03; x04; x05]; mSize := 3; mPosition := 0 |}.
Proof. vm_compute. reflexivity. Qed.

Example scenario_Update :
  Update [xff] 1 2 (EditableStreamOverBuffer [x01; x02; x03; x04; x05]) =
  Returns 1
    {| mBuffer := [xff; x03; x04; x05]; mSize := 4; mPosition := 1 |}.
Proof. vm_compute. reflexivity. Qed.

Example scenario_Insert_then_Read_back :
  (Insert [xaa; xbb] 2 ;;; Seek 1 ;;; Read [x00; x00] 2)
    {| mBuffer := [x01; x02; x03]; mSize := 3; mPosition := 1 |} =
  Returns (2, [xaa; xbb])
    {| mBuffer := [x01; xaa; xbb; x02; x03]; mSize := 5; mPosition := 3 |}.
Proof. vm_compute. reflexivity. Qed.

(** ** Round trips and compositions of the stream operations *)

Lemma Seek_run position st :
  0 <= position <= mSize st ->
  Seek position st =
  Returns tt
    {| mBuffer := mBuffer st; mSize := mSize st; mPosition := position |}.
Proof.
  intros H.
  destruct (Seek_cases position st) as [[? ?] | [(? & ? & ?) | [? E]]];
    try lia.
  exact E.
Qed.

Lemma skipn_past_prefix {A} (l1 l2 : list A) (a b : nat) :
  List.length l1 = a -> skipn (a + b) (l1 ++ l2) = skipn b l2.
Proof.
  intros <-. rewrite skipn_app.
  rewrite skipn_all2 by lia.
  now replace (List.length l1 + b - List.length l1)%nat with b by lia.
Qed.

Lemma valid_bounds st :
  valid st ->
  0 <= mPosition st <= mSize st /\ mSize st <= Int64.max /\
  mSize st = size_of (mBuffer st) /\
  (Z.to_nat (mPosition st) <= List.length (mBuffer st))%nat.
Proof.
  intros [[[? ?] ?] [? Hl]]. repeat split; try lia.
  unfold size_of in Hl. lia.
Qed.

(** The state [Insert] leaves is well formed. *)
Lemma Insert_run_valid B n st :
  valid st -> 0 < n -> n <= size_of B -> n <= Int64.max - mSize st ->
  valid
    {| mBuffer := firstn (Z.to_nat (mPosition st)) (mBuffer st)
                  ++ firstn (Z.to_nat n) B
                  ++ skipn (Z.to_nat (mPosition st)) (mBuffer st);
       mSize := mSize st + n;
       mPosition := mPosition st + n |}.
Proof.
  intros Hv Hn HB Hfit.
  destruct (Insert_valid B n st Hv HB) as [(st' & E & Hv') | E].
  - rewrite Insert_run in E by assumption.
    injection E as _ <-. exact Hv'.
  - rewrite Insert_run in E by assumption. discriminate.
Qed.

(** X1. Bytes inserted at the cursor are the bytes read back from there:
    [Insert B n], [Seek] to the old position, [Read] of [n] bytes. *)
Theorem Insert_then_Read_back B n dst st :
  valid st -> 0 < n -> n <= size_of B -> n <= size_of dst ->
  mSize st + n <= Int64.max ->
  (Insert B n ;;; Seek (mPosition st) ;;; Read dst n) st =
  Returns (n, firstn (Z.to_nat n) B ++ skipn (Z.to_nat n) dst)
    {| mBuffer := firstn (Z.to_nat (mPosition st)) (mBuffer st)
                  ++ firstn (Z.to_nat n) B
                  ++ skipn (Z.to_nat (mPosition st)) (mBuffer st);
       mSize := mSize st + n;
       mPosition := mPosition st + n |}.
Proof.
  intros Hv Hn HB Hdst Hfit.
  pose proof (valid_bounds st Hv) as (Hp & Hs & Hl & Hnat).
  pose proof (Insert_run_valid B n st Hv Hn HB ltac:(lia)) as Hv1.
  unfold bind. rewrite Insert_run by (assumption || lia).
  rewrite Seek_run by (cbn [mSize]; lia). cbn [mBuffer mSize mPosition].
  set (buf1 := firstn (Z.to_nat (mPosition st)) (mBuffer st)
               ++ firstn (Z.to_nat n) B
               ++ skipn (Z.to_nat (mPosition st)) (mBuffer st)) in *.
  assert (Hv2 : valid {| mBuffer := buf1; mSize := mSize st + n;
                         mPosition := mPosition st |}).
  { destruct Hv1 as [[Ht1 Ht2] [Hi1 Hi2]].
    cbn [mBuffer mSize mPosition] in *.
    repeat split; cbn [mBuffer mSize mPosition]; int64_bounds. }
  rewrite Read_run; cbn [mBuffer mSize mPosition];
    try assumption; [| lia].
  replace (Z.min n (mSize st + n - mPosition st)) with n by lia.
  subst buf1. rewrite skipn_of_prefix by assumption.
  rewrite firstn_of_prefix by (unfold size_of in HB; lia).
  reflexivity.
Qed.

Lemma Insert_then_Read_back_witness :
  (Insert [xaa; xbb] 2 ;;; Seek 1 ;;; Read [x00; x00] 2)
    {| mBuffer := [x01; x02; x03]; mSize := 3; mPosition := 1 |} =
  Returns (2, [xaa; xbb])
    {| mBuffer := [x01; xaa; xbb; x02; x03]; mSize := 5; mPosition := 3 |}.
Proof.
  apply (Insert_then_Read_back [xaa; xbb] 2 [x00; x00]
           {| mBuffer := [x01; x02; x03]; mSize := 3; mPosition := 1 |}).
  all: by_computation.
Defined.

(** X2. [Delete] undoes [Insert]: inserting [n] bytes, seeking back to where
    the cursor was and deleting [n] bytes gives back the starting state. *)
Theorem Insert_then_Delete_restores B n st :
  valid st -> 0 < n -> n <= size_of B ->
  mSize st + n <= Int64.max ->
  (Insert B n ;;; Seek (mPosition st) ;;; Delete n) st = Returns n st.
Proof.
  intros Hv Hn HB Hfit.
  pose proof (valid_bounds st Hv) as (Hp & Hs & Hl & Hnat).
  pose proof (Insert_run_valid B n st Hv Hn HB ltac:(lia)) as Hv1.
  unfold bind. rewrite Insert_run by (assumption || lia).
  rewrite Seek_run by (cbn [mSize]; lia). cbn [mBuffer mSize mPosition].
  set (buf1 := firstn (Z.to_nat (mPosition st)) (mBuffer st)
               ++ firstn (Z.to_nat n) B
               ++ skipn (Z.to_nat (mPosition st)) (mBuffer st)) in *.
  assert (Hv2 : valid {| mBuffer := buf1; mSize := mSize st + n;
                         mPosition := mPosition st |}).
  { destruct Hv1 as [[Ht1 Ht2] [Hi1 Hi2]].
    cbn [mBuffer mSize mPosition] in *.
    repeat split; cbn [mBuffer mSize mPosition]; int64_bounds. }
  rewrite Delete_run by assumption. cbn [mBuffer mSize mPosition].
  replace (Z.min n (mSize st + n - mPosition st)) with n by lia.
  subst buf1. rewrite firstn_of_prefix by assumption.
  replace (Z.to_nat (mPosition st + n))
    with (Z.to_nat (mPosition st) + Z.to_nat n)%nat by lia.
  rewrite skipn_past_prefix
    by (rewrite length_firstn; lia).
  rewrite <- (Nat.add_0_r (Z.to_nat n)).
  rewrite skipn_past_prefix
    by (rewrite length_firstn; unfold size_of in HB; lia).
  cbn [skipn]. rewrite firstn_skipn.
  replace (mSize st + n - n) with (mSize st) by lia.
  destruct st; reflexivity.
Qed.

Lemma Insert_then_Delete_restores_witness :
  let st := {| mBuffer := [x01; x02; x03]; mSize := 3; mPosition := 1 |} in
  (Insert [xaa; xbb] 2 ;;; Seek 1 ;;; Delete 2) st = Returns 2 st.
Proof.
  intros st. apply (Insert_then_Delete_restores [xaa; xbb] 2 st).
  all: by_computation.
Defined.

(** X3. Reading a freshly constructed stream from its start gives back the
    vector it was constructed from, and leaves the cursor at the end. *)
Theorem Read_whole_stream buffer dst :
  size_of buffer <= Int64.max -> size_of buffer <= size_of dst ->
  Read dst (size_of buffer) (EditableStreamOverBuffer buffer) =
  Returns (size_of buffer,
           buffer ++ skipn (List.length buffer) dst)
    {| mBuffer := buffer;
       mSize := size_of buffer;
       mPosition := size_of buffer |}.
Proof.
  intros Hfit Hdst.
  pose proof (size_of_nonneg buffer) as Hnn.
  assert (Hst : EditableStreamOverBuffer buffer =
                {| mBuffer := buffer; mSize := size_of buffer;
                   mPosition := 0 |}).
  { unfold EditableStreamOverBuffer, Int64.of_uint64.
    destruct (Z.leb_spec (size_of buffer) Int64.max); [reflexivity | lia]. }
  rewrite Hst.
  assert (Hv : valid {| mBuffer := buffer; mSize := size_of buffer;
                        mPosition := 0 |}).
  { repeat split; cbn [mBuffer mSize mPosition]; int64_bounds. }
  rewrite Read_general; cbn [mBuffer mSize mPosition]; try assumption.
  - destruct (Z.leb_spec (size_of buffer) 0) as [H0 | Hpos].
    + assert (buffer = []) as ->.
      { destruct buffer; [reflexivity |].
        unfold size_of in H0. cbn [List.length] in H0. lia. }
      reflexivity.
    + rewrite Z.sub_0_r, Z.min_id, Z.add_0_l.
      cbn [Z.to_nat skipn]. unfold size_of at 2 3.
      rewrite !Nat2Z.id, firstn_all. reflexivity.
  - destruct (Z.leb_spec (size_of buffer) 0); lia.
Qed.

Lemma Read_whole_stream_witness :
  Read [x00; x00; x00; x00] 3 (EditableStreamOverBuffer [x01; x02; x03]) =
  Returns (3, [x01; x02; x03; x00])
    {| mBuffer := [x01; x02; x03]; mSize := 3; mPosition := 3 |}.
Proof.
  apply (Read_whole_stream [x01; x02; x03] [x00; x00; x00; x00]).
  all: by_computation.
Defined.

(** X4. [Write] overwrites: the [n] bytes of the caller replace the content at
    offsets [p .. p + n - 1]; content before [p] and from [p + n] on stays;
    the size grows only when the write runs past the end, to [p + n]. *)
Theorem Write_overwrites B n st :
  valid st -> 0 < n -> n <= size_of B ->
  mPosition st + n <= Int64.max ->
  Write B n st =
  Returns n
    {| mBuffer := firstn (Z.to_nat (mPosition st)) (mBuffer st)
                  ++ firstn (Z.to_nat n) B
                  ++ skipn (Z.to_nat (mPosition st + n)) (mBuffer st);
       mSize := Z.max (mSize st) (mPosition st + n);
       mPosition := mPosition st + n |}.
Proof.
  intros Hv Hn HB Hfit.
  pose proof (valid_bounds st Hv) as (Hp & Hs & Hl & Hnat).
  unfold Write. rewrite Update_run by (assumption || lia).
  destruct (Z.le_gt_cases n (mSize st - mPosition st)) as [Hin | Hout].
  - rewrite Z.min_l by assumption.
    replace (mSize st - n + n) with (mSize st) by lia.
    now rewrite Z.max_l by lia.
  - rewrite Z.min_r by lia.
    replace (mPosition st + (mSize st - mPosition st)) with (mSize st) by lia.
    replace (mSize st - (mSize st - mPosition st) + n)
      with (mPosition st + n) by lia.
    rewrite Z.max_r by lia.
    rewrite !skipn_all2 by (unfold size_of in Hl; lia). reflexivity.
Qed.

Lemma Write_overwrites_witness :
  Write [xaa; xbb; xcc] 3
    {| mBuffer := [x01; x02; x03; x04]; mSize := 4; mPosition := 2 |} =
  Returns 3
    {| mBuffer := [x01; x02; xaa; xbb; xcc]; mSize := 5; mPosition := 5 |}.
Proof.
  apply (Write_overwrites [xaa; xbb; xcc] 3
           {| mBuffer := [x01; x02; x03; x04]; mSize := 4; mPosition := 2 |}).
  all: by_computation.
Defined.

(** X5. [Write] of [n > 0] bytes at position [p] throws exactly when [p + n]
    is above the largest [int64_t]; it has then already deleted everything
    from the cursor on: the state left is the content before [p], with
    size and position [p]. *)
Theorem Write_throws_iff B n st :
  valid st -> 0 < n ->
  ((exists e st', Write B n st = Throws e st') <->
   Int64.max < mPosition st + n) /\
  (Int64.max < mPosition st + n ->
   Write B n st =
   Throws overflow_error
     {| mBuffer := firstn (Z.to_nat (mPosition st)) (mBuffer st);
        mSize := mPosition st;
        mPosition := mPosition st |}).
Proof.
  intros Hv Hn.
  pose proof (valid_bounds st Hv) as (Hp & Hs & Hl & Hnat).
  assert (HD : Delete n st =
    Returns (Z.min n (mSize st - mPosition st))
      {| mBuffer := firstn (Z.to_nat (mPosition st)) (mBuffer st)
           ++ skipn (Z.to_nat (mPosition st
                               + Z.min n (mSize st - mPosition st)))
                (mBuffer st);
         mSize := mSize st - Z.min n (mSize st - mPosition st);
         mPosition := mPosition st |}) by now apply Delete_run.
  assert (Hthrow : Int64.max < mPosition st + n ->
   Write B n st =
   Throws overflow_error
     {| mBuffer := firstn (Z.to_nat (mPosition st)) (mBuffer st);
        mSize := mPosition st;
        mPosition := mPosition st |}).
  { intros Hov. unfold Write, Update, bind. rewrite HD.
    rewrite Z.min_r by lia.
    replace (mPosition st + (mSize st - mPosition st)) with (mSize st) by lia.
    replace (mSize st - (mSize st - mPosition st)) with (mPosition st) by lia.
    rewrite skipn_all2, app_nil_r by (unfold size_of in Hl; lia).
    apply Insert_overflow; cbn [mSize]; lia. }
  split; [split |]; [| | exact Hthrow].
  - intros (e & st' & E). unfold Write, Update, bind in E. rewrite HD in E.
    apply Insert_throws_inv in E. destruct E as (_ & _ & _ & room & Er & Hlt).
    cbn [mSize] in Er.
    rewrite Int64_sub_fits in Er by int64_bounds.
    apply Some_eq in Er. subst room. lia.
  - intros Hov. eexists _, _. now apply Hthrow.
Qed.

Lemma Write_throws_iff_witness :
  Write [xff] (Int64.max - 1)
    {| mBuffer := [x01; x02; x03; x04]; mSize := 4; mPosition := 2 |} =
  Throws overflow_error
    {| mBuffer := [x01; x02]; mSize := 2; mPosition := 2 |}.
Proof.
  apply (proj2 (Write_throws_iff [xff] (Int64.max - 1)
           {| mBuffer := [x01; x02; x03; x04]; mSize := 4; mPosition := 2 |}
           ltac:(by_computation) ltac:(by_computation))).
  by_computation.
Defined.

Lemma Delete_run_valid n st :
  valid st -> 0 < n ->
  valid
    {| mBuffer :=
         firstn (Z.to_nat (mPosition st)) (mBuffer st)
         ++ skipn (Z.to_nat (mPosition st
                             + Z.min n (mSize st - mPosition st)))
              (mBuffer st);
       mSize := mSize st - Z.min n (mSize st - mPosition st);
       mPosition := mPosition st |}.
Proof.
  intros Hv Hn.
  destruct (Delete_valid n st Hv) as (d & st' & E & Hv').
  rewrite Delete_run in E by assumption.
  injection E as _ <-. exact Hv'.
Qed.

(** X6. Two deletions in a row are one deletion of the sum: the same bytes
    are gone, and the two counts returned add up to the count of the one. *)
Theorem Delete_twice a b st :
  valid st -> 0 < a -> 0 < b ->
  exists d1 st1 d2 st2,
    Delete a st = Returns d1 st1 /\
    Delete b st1 = Returns d2 st2 /\
    Delete (a + b) st = Returns (d1 + d2) st2.
Proof.
  intros Hv Ha Hb.
  pose proof (valid_bounds st Hv) as (Hp & Hs & Hl & Hnat).
  pose proof (Delete_run_valid a st Hv Ha) as Hv1.
  eexists _, _, _, _.
  split; [now apply Delete_run |].
  split; [now apply Delete_run |].
  rewrite Delete_run by (assumption || lia).
  cbn [mBuffer mSize mPosition].
  set (d1 := Z.min a (mSize st - mPosition st)).
  set (d2 := Z.min b (mSize st - d1 - mPosition st)).
  assert (Hd : Z.min (a + b) (mSize st - mPosition st) = d1 + d2)
    by (subst d1 d2; lia).
  assert (0 <= d1 <= mSize st - mPosition st) by (subst d1; lia).
  assert (0 <= d2) by (subst d2; lia).
  rewrite Hd. f_equal. f_equal; [| lia].
  rewrite firstn_of_prefix by assumption. f_equal.
  replace (Z.to_nat (mPosition st + d2))
    with (Z.to_nat (mPosition st) + Z.to_nat d2)%nat by lia.
  rewrite skipn_past_prefix by (rewrite length_firstn; lia).
  rewrite skipn_skipn. f_equal. lia.
Qed.

Lemma Delete_twice_witness :
  let st := EditableStreamOverBuffer [x01; x02; x03; x04; x05] in
  exists d1 st1 d2 st2,
    Delete 1 st = Returns d1 st1 /\
    Delete 2 st1 = Returns d2 st2 /\
    Delete (1 + 2) st = Returns (d1 + d2) st2.
Proof.
  intros st. apply (Delete_twice 1 2 st).
  all: by_computation.
Defined.

Lemma firstn_exact {A} (l1 l2 : list A) (a : nat) :
  List.length l1 = a -> firstn a (l1 ++ l2) = l1.
Proof.
  intros <-. rewrite firstn_app, Nat.sub_diag, firstn_all.
  cbn [firstn]. apply app_nil_r.
Qed.

Lemma firstn_past_prefix {A} (l1 l2 : list A) (a b : nat) :
  List.length l1 = a -> firstn (a + b) (l1 ++ l2) = l1 ++ firstn b l2.
Proof. intros <-. apply firstn_app_2. Qed.

Lemma skipn_exact {A} (l1 l2 : list A) (a : nat) :
  List.length l1 = a -> skipn a (l1 ++ l2) = l2.
Proof.
  intros H. rewrite <- (Nat.add_0_r a).
  now rewrite skipn_past_prefix.
Qed.

(** X7. Two insertions in a row are one insertion of the two byte runs joined:
    the state left is the same. *)
Theorem Insert_twice B1 n1 B2 n2 st :
  valid st -> 0 < n1 -> 0 < n2 ->
  n1 <= size_of B1 -> n2 <= size_of B2 ->
  mSize st + n1 + n2 <= Int64.max ->
  exists st1 st2,
    Insert B1 n1 st = Returns n1 st1 /\
    Insert B2 n2 st1 = Returns n2 st2 /\
    Insert (firstn (Z.to_nat n1) B1 ++ B2) (n1 + n2) st =
      Returns (n1 + n2) st2.
Proof.
  intros Hv H1 H2 HB1 HB2 Hfit.
  pose proof (valid_bounds st Hv) as (Hp & Hs & Hl & Hnat).
  pose proof (Insert_run_valid B1 n1 st Hv H1 HB1 ltac:(lia)) as Hv1.
  eexists _, _.
  split; [apply Insert_run; assumption || lia |].
  split; [apply Insert_run; cbn [mSize]; assumption || lia |].
  assert (HlenX : List.length (firstn (Z.to_nat n1) B1) = Z.to_nat n1).
  { rewrite length_firstn. unfold size_of in HB1. lia. }
  assert (HlenP : List.length (firstn (Z.to_nat (mPosition st)) (mBuffer st))
                  = Z.to_nat (mPosition st)).
  { rewrite length_firstn. lia. }
  rewrite Insert_run; try assumption; try lia.
  - cbn [mBuffer mSize mPosition]. f_equal. f_equal; [| lia | lia].
    set (P := firstn (Z.to_nat (mPosition st)) (mBuffer st)) in *.
    set (X := firstn (Z.to_nat n1) B1) in *.
    set (S := skipn (Z.to_nat (mPosition st)) (mBuffer st)).
    replace (Z.to_nat (mPosition st + n1))
      with (Z.to_nat (mPosition st) + Z.to_nat n1)%nat by lia.
    replace (Z.to_nat (n1 + n2)) with (Z.to_nat n1 + Z.to_nat n2)%nat by lia.
    rewrite (firstn_past_prefix P (X ++ S)) by assumption.
    rewrite (firstn_exact X S) by assumption.
    rewrite (skipn_past_prefix P (X ++ S)) by assumption.
    rewrite (skipn_exact X S) by assumption.
    rewrite (firstn_past_prefix X B2) by assumption.
    now rewrite <- !app_assoc.
  - rewrite size_of_app. unfold size_of at 1. rewrite HlenX. lia.
Qed.

Lemma Insert_twice_witness :
  let st := {| mBuffer := [x01; x02; x03]; mSize := 3; mPosition := 1 |} in
  exists st1 st2,
    Insert [xaa] 1 st = Returns 1 st1 /\
    Insert [xbb; xcc] 2 st1 = Returns 2 st2 /\
    Insert (firstn (Z.to_nat 1) [xaa] ++ [xbb; xcc]) (1 + 2) st =
      Returns (1 + 2) st2.
Proof.
  intros st. apply (Insert_twice [xaa] 1 [xbb; xcc] 2 st).
  all: by_computation.
Defined.

(** X8. [Update] replaces: from a well-formed state with position [p] and
    size [s], [Update B n r] with [r > 0] and [n > 0] puts the [n] bytes of
    the caller where the [d = min r (s - p)] bytes at the cursor were, of
    equal number or not; the size is [s - d + n], the cursor ends behind
    the new bytes, and [n] is returned. *)
Theorem Update_replaces B n r st :
  valid st -> 0 < r -> 0 < n -> n <= size_of B ->
  mSize st - Z.min r (mSize st - mPosition st) + n <= Int64.max ->
  Update B n r st =
  Returns n
    {| mBuffer :=
         firstn (Z.to_nat (mPosition st)) (mBuffer st)
         ++ firstn (Z.to_nat n) B
         ++ skipn (Z.to_nat (mPosition st
                             + Z.min r (mSize st - mPosition st)))
              (mBuffer st);
       mSize := mSize st - Z.min r (mSize st - mPosition st) + n;
       mPosition := mPosition st + n |}.
Proof. intros Hv Hr Hn HB Hfit. now apply Update_run. Qed.

Lemma Update_replaces_witness :
  Update [xff] 1 2 (EditableStreamOverBuffer [x01; x02; x03; x04; x05]) =
  Returns 1
    {| mBuffer := [xff; x03; x04; x05]; mSize := 4; mPosition := 1 |}.
Proof.
  apply (Update_replaces [xff] 1 2
           (EditableStreamOverBuffer [x01; x02; x03; x04; x05])).
  all: by_computation.
Defined.

(** ** What the editing operations never touch *)

Lemma Delete_effect n st :
  valid st ->
  exists d st',
    Delete n st = Returns d st' /\ valid st' /\
    mPosition st' = mPosition st /\
    firstn (Z.to_nat (mPosition st)) (mBuffer st') =
    firstn (Z.to_nat (mPosition st)) (mBuffer st).
Proof.
  intros Hv.
  pose proof (valid_bounds st Hv) as (Hp & Hs & Hl & Hnat).
  destruct (Z.le_gt_cases n 0) as [Hn | Hn].
  - exists 0, st. rewrite Delete_nonpositive by assumption. auto.
  - eexists _, _. split; [now apply Delete_run |].
    split; [now apply Delete_run_valid |].
    cbn [mBuffer mPosition]. split; [reflexivity |].
    now apply firstn_of_prefix.
Qed.

Lemma Insert_effect_defined B n st st' :
  valid st ->
  state_after (Insert B n st) = Some st' ->
  mPosition st <= mPosition st' /\
  firstn (Z.to_nat (mPosition st)) (mBuffer st') =
  firstn (Z.to_nat (mPosition st)) (mBuffer st).
Proof.
  intros Hv H.
  pose proof (valid_bounds st Hv) as (Hp & Hs & Hl & Hnat).
  destruct (Insert_outcome B n st Hv)
    as [(Hn & E) | [(Hn & Hov & E) | [(Hn & Hfit & HB & E)
                                     | (Hn & Hfit & HB & E)]]];
    rewrite E in H; cbn [state_after] in H.
  - injection H as <-. split; [lia | reflexivity].
  - injection H as <-. split; [lia | reflexivity].
  - injection H as <-. cbn [mBuffer mPosition].
    split; [lia |]. apply firstn_of_prefix. exact Hnat.
  - discriminate.
Qed.

(** X9. No operation but [Seek] moves the cursor backwards, and none changes a
    byte before the cursor: whatever state a call of [Read], [Write],
    [Insert], [Delete], [Update], [Flush], [Position], [Size] or the [Size]
    setter leaves, returning or throwing, the position is at least what it
    was and the content before the old position is what it was. Nothing
    is asked of the caller's array: a call that throws before reading it
    is covered as it is. *)
Theorem cursor_advances_prefix_stays c st st' :
  valid st ->
  (forall position, c <> call_Seek position) ->
  perform c st = Some st' ->
  mPosition st <= mPosition st' /\
  firstn (Z.to_nat (mPosition st)) (mBuffer st') =
  firstn (Z.to_nat (mPosition st)) (mBuffer st).
Proof.
  intros Hv Hseek H.
  pose proof (valid_bounds st Hv) as (Hp & Hs & Hl & Hnat).
  assert (HU : forall B n r,
    state_after (Update B n r st) = Some st' ->
    mPosition st <= mPosition st' /\
    firstn (Z.to_nat (mPosition st)) (mBuffer st') =
    firstn (Z.to_nat (mPosition st)) (mBuffer st)).
  { intros B n r E.
    destruct (Delete_effect r st Hv) as (d & st1 & Hd & Hv1 & Hp1 & Hpre1).
    unfold Update, bind in E. rewrite Hd in E.
    apply Insert_effect_defined in E; [| exact Hv1].
    rewrite Hp1 in E. destruct E as [E1 E2].
    split; [exact E1 |]. rewrite E2. exact Hpre1. }
  destruct c; cbn [perform] in *.
  - destruct (Z.le_gt_cases bufferLength 0) as [HL | HL].
    + rewrite Read_nonpositive in H by assumption.
      injection H as <-. split; [lia | reflexivity].
    + destruct (Z.le_gt_cases
                  (Z.min bufferLength (mSize st - mPosition st))
                  (size_of buffer)) as [Hcap | Hcap].
      * rewrite Read_run in H by assumption.
        injection H as <-. cbn [mBuffer mPosition].
        split; [lia | reflexivity].
      * rewrite Read_undefined in H by assumption. discriminate.
  - apply (HU buffer bufferLength bufferLength). exact H.
  - apply (Insert_effect_defined buffer bufferLength); assumption.
  - destruct (Delete_effect numBytes st Hv) as (d & st1 & Hd & _ & Hp1 & Hpre).
    rewrite Hd in H. injection H as <-. split; [lia | exact Hpre].
  - apply (HU buffer bufferLength replaceLength). exact H.
  - now contradiction (Hseek position).
  - injection H as <-. split; [lia | reflexivity].
  - injection H as <-. split; [lia | reflexivity].
  - injection H as <-. split; [lia | reflexivity].
  - injection H as <-. split; [lia | reflexivity].
Qed.

Lemma cursor_advances_prefix_stays_witness :
  let st := {| mBuffer := [x01; x02; x03; x04]; mSize := 4; mPosition := 2 |} in
  let st' := {| mBuffer := [x01; x02]; mSize := 2; mPosition := 2 |} in
  mPosition st <= mPosition st' /\
  firstn (Z.to_nat (mPosition st)) (mBuffer st') =
  firstn (Z.to_nat (mPosition st)) (mBuffer st).
Proof.
  intros st st'.
  apply (cursor_advances_prefix_stays
           (call_Write [xff] (Int64.max - 1)) st st').
  - by_computation.
  - intros position. discriminate.
  - vm_compute. reflexivity.
Defined.

(** * The string helpers of the sample *)

(** ** Searching a string *)

Lemma find_last_if_None p s :
  StdString.find_last_if p s = None <-> Forall (fun c => p c = false) s.
Proof.
  induction s as [| c s IH]; cbn [StdString.find_last_if].
  - split; [constructor | reflexivity].
  - destruct (StdString.find_last_if p s) as [i |].
    + split; [discriminate |].
      intros H. inversion H; subst.
      match goal with HF : Forall _ s |- _ => apply IH in HF end.
      discriminate.
    + destruct (p c) eqn:Hc.
      * split; [discriminate |].
        intros H. inversion H; subst. congruence.
      * split; [| reflexivity].
        intros _. constructor; [exact Hc | now apply IH].
Qed.

Lemma find_last_if_Some p s i :
  StdString.find_last_if p s = Some i ->
  exists pre c post,
    s = pre ++ c :: post /\ List.length pre = i /\ p c = true /\
    Forall (fun x => p x = false) post.
Proof.
  revert i. induction s as [| c s IH]; cbn [StdString.find_last_if];
    intros i H; [discriminate |].
  destruct (StdString.find_last_if p s) as [j |] eqn:E.
  - injection H as <-.
    destruct (IH j eq_refl) as (pre & x & post & -> & Hl & Hx & Hpost).
    exists (c :: pre), x, post. cbn [List.length app]. auto.
  - destruct (p c) eqn:Hc; [| discriminate].
    injection H as <-. exists [], c, s.
    repeat split; try assumption. now apply find_last_if_None.
Qed.

Lemma find_last_if_split p pre c post :
  p c = true -> Forall (fun x => p x = false) post ->
  StdString.find_last_if p (pre ++ c :: post) = Some (List.length pre).
Proof.
  intros Hc Hpost. induction pre as [| x pre IH];
    cbn [app StdString.find_last_if List.length].
  - apply find_last_if_None in Hpost. now rewrite Hpost, Hc.
  - now rewrite IH.
Qed.

Lemma find_first_if_None p s :
  StdString.find_first_if p s = None <-> Forall (fun c => p c = false) s.
Proof.
  induction s as [| c s IH]; cbn [StdString.find_first_if].
  - split; [constructor | reflexivity].
  - destruct (p c) eqn:Hc.
    + split; [discriminate |].
      intros H. inversion H; subst. congruence.
    + destruct (StdString.find_first_if p s); cbn [option_map].
      * split; [discriminate |].
        intros H. inversion H; subst.
        match goal with HF : Forall _ s |- _ => apply IH in HF end.
        discriminate.
      * split; [| reflexivity].
        intros _. constructor; [exact Hc | now apply IH].
Qed.

Lemma find_first_if_Some p s i :
  StdString.find_first_if p s = Some i ->
  exists pre c post,
    s = pre ++ c :: post /\ List.length pre = i /\ p c = true /\
    Forall (fun x => p x = false) pre.
Proof.
  revert i. induction s as [| c s IH]; cbn [StdString.find_first_if];
    intros i H; [discriminate |].
  destruct (p c) eqn:Hc.
  - injection H as <-. exists [], c, s. auto.
  - destruct (StdString.find_first_if p s) as [j |]; [| discriminate].
    cbn [option_map] in H. injection H as <-.
    destruct (IH j eq_refl) as (pre & x & post & -> & Hl & Hx & Hpre).
    exists (c :: pre), x, post. cbn [List.length app]. auto.
Qed.

Lemma find_first_if_split p pre c post :
  p c = true -> Forall (fun x => p x = false) pre ->
  StdString.find_first_if p (pre ++ c :: post) = Some (List.length pre).
Proof.
  intros Hc Hpre. induction Hpre as [| x pre Hx Hpre IH];
    cbn [app StdString.find_first_if List.length].
  - now rewrite Hc.
  - now rewrite Hx, IH.
Qed.

Lemma skipn_exact_cons {A} (pre : list A) (c : A) (post : list A) :
  skipn (List.length pre + 1) (pre ++ c :: post) = post.
Proof.
  rewrite skipn_past_prefix by reflexivity. reflexivity.
Qed.

(** ** File names *)

Lemma GetFileName_split filePath :
  exists dir,
    filePath = dir ++ GetFileName filePath /\
    Forall (fun c => is_separator c = false) (GetFileName filePath) /\
    (dir = [] \/
     exists d c, dir = d ++ [c] /\ is_separator c = true).
Proof.
  unfold GetFileName, StdString.find_last_of.
  destruct (StdString.find_last_if _ filePath) as [i |] eqn:E.
  - apply find_last_if_Some in E.
    destruct E as (pre & c & post & -> & <- & Hc & Hpost).
    exists (pre ++ [c]). unfold StdString.substr.
    rewrite skipn_exact_cons, <- app_assoc.
    split; [reflexivity |]. split; [exact Hpost |].
    right. now exists pre, c.
  - apply find_last_if_None in E. exists []. auto.
Qed.

(** X10. [GetFileName] cuts a path after its last separator, slash or
    backslash: the path is some directory part followed by the result, the
    result holds no separator, and the directory part is empty or ends in
    a separator. *)
Theorem GetFileName_is_last_component filePath :
  exists dir,
    filePath = dir ++ GetFileName filePath /\
    Forall (fun c => is_separator c = false) (GetFileName filePath) /\
    (dir = [] \/
     exists d c, dir = d ++ [c] /\ is_separator c = true).
Proof. apply GetFileName_split. Qed.

Lemma GetFileName_joined dir c name :
  Forall (fun x => is_separator x = false) name ->
  is_separator c = true -> GetFileName (dir ++ c :: name) = name.
Proof.
  intros Hname Hc. unfold GetFileName, StdString.find_last_of.
  rewrite find_last_if_split by assumption.
  unfold StdString.substr. apply skipn_exact_cons.
Qed.

Lemma GetFileName_bare name :
  Forall (fun x => is_separator x = false) name -> GetFileName name = name.
Proof.
  intros Hname. unfold GetFileName, StdString.find_last_of.
  apply find_last_if_None in Hname.
  unfold is_separator in Hname. now rewrite Hname.
Qed.

(** X11. [GetFileName] gives back the name a path was built from: after any
    directory part and a separator, a name free of separators is returned
    as it is; so is a bare name. *)
Theorem GetFileName_of_joined dir c name :
  Forall (fun x => is_separator x = false) name ->
  (is_separator c = true -> GetFileName (dir ++ c :: name) = name) /\
  GetFileName name = name.
Proof.
  intros Hname. split.
  - now apply GetFileName_joined.
  - now apply GetFileName_bare.
Qed.

Lemma GetFileName_of_joined_witness :
  GetFileName (list_ascii_of_string "/tmp/a.b/report.docx") =
  list_ascii_of_string "report.docx".
Proof.
  apply (proj1 (GetFileName_of_joined
                  (list_ascii_of_string "/tmp/a.b") "/"%char
                  (list_ascii_of_string "report.docx")
                  ltac:(repeat constructor))).
  reflexivity.
Defined.

(** ** File extensions *)

Lemma dot_eqb_true c : Ascii.eqb kExtensionSeparator c = true -> c = "."%char.
Proof. intros H. apply Ascii.eqb_eq in H. now subst. Qed.

Lemma GetFileExtension_split filePath :
  exists stem,
    filePath = stem ++ GetFileExtension filePath /\
    ((GetFileExtension filePath = [] /\
      Forall (fun c => Ascii.eqb kExtensionSeparator c = false)
        (GetFileName filePath))
     \/
     exists ext,
       GetFileExtension filePath = "."%char :: ext /\
       Forall (fun c => Ascii.eqb kExtensionSeparator c = false) ext /\
       Forall (fun c => is_separator c = false) ext).
Proof.
  destruct (GetFileName_split filePath) as (dir & Hpath & Hnosep & _).
  unfold GetFileExtension, StdString.rfind.
  destruct (StdString.find_last_if _ (GetFileName filePath)) as [i |] eqn:E.
  - apply find_last_if_Some in E.
    destruct E as (pre & c & post & Hname & <- & Hc & Hpost).
    apply dot_eqb_true in Hc. subst c.
    rewrite Hname in Hpath, Hnosep |- *.
    unfold StdString.substr.
    rewrite (skipn_exact pre ("."%char :: post)) by reflexivity.
    exists (dir ++ pre). split; [now rewrite <- app_assoc |].
    right. exists post. split; [reflexivity |]. split; [exact Hpost |].
    apply Forall_app in Hnosep. destruct Hnosep as [_ Hn].
    now inversion Hn.
  - apply find_last_if_None in E. exists filePath.
    split; [now rewrite app_nil_r |]. now left.
Qed.

(** X12. [GetFileExtension] returns a tail of the path that is either empty,
    when the file name has no dot, or a dot followed by characters that
    are neither dots nor separators. *)
Theorem GetFileExtension_shape filePath :
  exists stem,
    filePath = stem ++ GetFileExtension filePath /\
    ((GetFileExtension filePath = [] /\
      Forall (fun c => Ascii.eqb kExtensionSeparator c = false)
        (GetFileName filePath))
     \/
     exists ext,
       GetFileExtension filePath = "."%char :: ext /\
       Forall (fun c => Ascii.eqb kExtensionSeparator c = false) ext /\
       Forall (fun c => is_separator c = false) ext).
Proof. apply GetFileExtension_split. Qed.

Lemma GetFileExtension_joined base ext :
  Forall (fun x => is_separator x = false) base ->
  Forall (fun x => is_separator x = false) ext ->
  Forall (fun x => Ascii.eqb kExtensionSeparator x = false) ext ->
  (forall dir c, is_separator c = true ->
     GetFileExtension (dir ++ c :: base ++ "."%char :: ext)
     = "."%char :: ext) /\
  GetFileExtension (base ++ "."%char :: ext) = "."%char :: ext.
Proof.
  intros Hbase Hext Hdot.
  assert (Hname : Forall (fun x => is_separator x = false)
                    (base ++ "."%char :: ext)).
  { apply Forall_app. split; [assumption |].
    constructor; [reflexivity | assumption]. }
  assert (Hr : StdString.substr (base ++ "."%char :: ext) (List.length base)
               = "."%char :: ext).
  { unfold StdString.substr. now apply skipn_exact. }
  split.
  - intros dir c Hc. unfold GetFileExtension.
    rewrite GetFileName_joined by assumption.
    unfold StdString.rfind.
    rewrite find_last_if_split by (reflexivity || assumption). exact Hr.
  - unfold GetFileExtension. rewrite GetFileName_bare by assumption.
    unfold StdString.rfind.
    rewrite find_last_if_split by (reflexivity || assumption). exact Hr.
Qed.

(** X13. The extension of [dir/base.ext] is [.ext], whatever the directory
    part holds and however many dots the base has, provided base and
    extension hold no separator and the extension no dot; a dot in a
    directory name is never taken for an extension: a dotless file name
    has the empty extension. *)
Theorem GetFileExtension_of_joined dir c base ext name :
  is_separator c = true ->
  Forall (fun x => is_separator x = false) base ->
  Forall (fun x => is_separator x = false) ext ->
  Forall (fun x => Ascii.eqb kExtensionSeparator x = false) ext ->
  Forall (fun x => is_separator x = false) name ->
  Forall (fun x => Ascii.eqb kExtensionSeparator x = false) name ->
  GetFileExtension (dir ++ c :: base ++ "."%char :: ext) = "."%char :: ext /\
  GetFileExtension (dir ++ c :: name) = [].
Proof.
  intros Hc Hbase Hext Hdot Hname Hnodot. split.
  - now apply GetFileExtension_joined.
  - unfold GetFileExtension. rewrite GetFileName_joined by assumption.
    unfold StdString.rfind. apply find_last_if_None in Hnodot.
    now rewrite Hnodot.
Qed.

Lemma GetFileExtension_of_joined_witness :
  GetFileExtension (list_ascii_of_string "/tmp/a.b/report.v2.docx") =
    list_ascii_of_string ".docx" /\
  GetFileExtension (list_ascii_of_string "/tmp/a.b/README") = [].
Proof.
  apply (GetFileExtension_of_joined
           (list_ascii_of_string "/tmp/a.b") "/"%char
           (list_ascii_of_string "report.v2")
           (list_ascii_of_string "docx")
           (list_ascii_of_string "README")).
  all: first [reflexivity | repeat constructor].
Defined.

(** ** Directories and joined paths *)

Lemma substr_to_nat s n :
  (n <= List.length s)%nat ->
  StdString.substr_to s (N.of_nat n) = firstn n s.
Proof.
  intros H. unfold StdString.substr_to.
  rewrite N.min_l by lia. now rewrite Nat2N.id.
Qed.

Lemma find_last_if_ext p q s :
  Forall (fun c => p c = q c) s ->
  StdString.find_last_if p s = StdString.find_last_if q s.
Proof.
  induction 1 as [| c s Hc _ IH]; cbn [StdString.find_last_if];
    [reflexivity |].
  now rewrite IH, Hc.
Qed.

Lemma PathSeparator_is_separator win32 :
  is_separator (PathSeparator win32) = true.
Proof. now destruct win32. Qed.

Lemma last_char_nth (pre : list ascii) (x : ascii) :
  nth (List.length (pre ++ [x]) - 1) (pre ++ [x]) Ascii.zero = x.
Proof.
  rewrite length_app. cbn [List.length].
  replace (List.length pre + 1 - 1)%nat with (List.length pre) by lia.
  apply nth_middle.
Qed.

Lemma GetDirFromPath_split win32 path :
  exists name,
    path = GetDirFromPath win32 path ++ name /\
    Forall (fun c => Ascii.eqb (PathSeparator win32) c = false) name /\
    (GetDirFromPath win32 path = [] \/
     exists d, GetDirFromPath win32 path = d ++ [PathSeparator win32]).
Proof.
  destruct path as [| c0 path0]; [exists []; cbn; auto |].
  set (path := c0 :: path0). unfold GetDirFromPath. fold path.
  change (match path with [] => [] | _ :: _ => ?x end) with x.
  unfold StdString.rfind.
  destruct (StdString.find_last_if _ path) as [i |] eqn:E.
  - apply find_last_if_Some in E.
    destruct E as (pre & c & post & Hp & <- & Hc & Hpost).
    apply Ascii.eqb_eq in Hc. subst c. rewrite Hp.
    cbn [StdString.size_succ].
    rewrite substr_to_nat by (rewrite length_app; cbn [List.length]; lia).
    replace (S (List.length pre)) with (List.length (pre ++ [PathSeparator win32]))
      by (rewrite length_app; cbn [List.length]; lia).
    replace (pre ++ PathSeparator win32 :: post)
      with ((pre ++ [PathSeparator win32]) ++ post)
      by now rewrite <- app_assoc.
    rewrite firstn_exact by reflexivity.
    exists post. split; [reflexivity |]. split; [exact Hpost |].
    right. now exists pre.
  - apply find_last_if_None in E. cbn [StdString.size_succ].
    rewrite substr_to_nat by lia. cbn [firstn].
    exists path. auto.
Qed.

(** X14. [GetDirFromPath] returns a head of the path that is empty or ends in
    the platform's separator, and no separator of the platform follows
    it. *)
Theorem GetDirFromPath_is_directory_part win32 path :
  exists name,
    path = GetDirFromPath win32 path ++ name /\
    Forall (fun c => Ascii.eqb (PathSeparator win32) c = false) name /\
    (GetDirFromPath win32 path = [] \/
     exists d, GetDirFromPath win32 path = d ++ [PathSeparator win32]).
Proof. apply GetDirFromPath_split. Qed.

Lemma CombinePaths_dir win32 dir name :
  dir = [] \/ (exists d, dir = d ++ [PathSeparator win32]) ->
  CombinePaths win32 dir name = dir ++ name.
Proof.
  intros [-> | (d & ->)]; [reflexivity |].
  unfold CombinePaths.
  destruct (d ++ [PathSeparator win32]) eqn:E.
  - now destruct d.
  - rewrite <- E, last_char_nth, Ascii.eqb_refl. reflexivity.
Qed.

(** X15. A path whose separators are all the platform's is put together again
    from its two parts: [GetDirFromPath] followed by [GetFileName] is the
    path, and so is [CombinePaths] of the two. *)
Theorem path_split_and_rejoined win32 path :
  Forall (fun c => is_separator c = Ascii.eqb (PathSeparator win32) c) path ->
  GetDirFromPath win32 path ++ GetFileName path = path /\
  CombinePaths win32 (GetDirFromPath win32 path) (GetFileName path) = path.
Proof.
  intros Hsep.
  destruct (GetDirFromPath_split win32 path) as (name & Hp & Hname & Hdir).
  assert (HN : GetFileName path = name).
  { assert (Hnosep : Forall (fun c => is_separator c = false) name).
    { rewrite Hp in Hsep. apply Forall_app in Hsep. destruct Hsep as [_ Hs].
      rewrite Forall_forall in *. intros c Hc.
      now rewrite (Hs c Hc), (Hname c Hc). }
    destruct Hdir as [E | (d & E)].
    - rewrite E in Hp. cbn [app] in Hp. rewrite Hp.
      now apply GetFileName_bare.
    - rewrite Hp at 1. rewrite E, <- app_assoc. cbn [app].
      apply GetFileName_joined; [assumption |].
      apply PathSeparator_is_separator. }
  rewrite HN. split; [now rewrite <- Hp |].
  rewrite CombinePaths_dir by assumption. now rewrite <- Hp.
Qed.

Lemma path_split_and_rejoined_witness :
  let path := list_ascii_of_string "/opt/mip/bin/file_sample" in
  GetDirFromPath false path ++ GetFileName path = path /\
  CombinePaths false (GetDirFromPath false path) (GetFileName path) = path.
Proof.
  intros path. apply (path_split_and_rejoined false path).
  repeat constructor.
Defined.

Lemma CombinePaths_cases win32 folder name :
  (folder = [] /\ CombinePaths win32 folder name = name) \/
  (exists pre,
     folder = pre ++ [PathSeparator win32] /\
     CombinePaths win32 folder name = folder ++ name) \/
  (exists pre x,
     folder = pre ++ [x] /\ x <> PathSeparator win32 /\
     CombinePaths win32 folder name
     = folder ++ PathSeparator win32 :: name).
Proof.
  destruct folder as [| c0 folder0]; [left; now split |].
  right.
  assert (Hne : c0 :: folder0 <> []) by discriminate.
  destruct (exists_last Hne) as (pre & x & E).
  unfold CombinePaths. rewrite E.
  destruct (pre ++ [x]) as [| c1 rest] eqn:E1;
    [now destruct pre |].
  rewrite <- E1, last_char_nth.
  destruct (Ascii.eqb_spec x (PathSeparator win32)) as [-> | Hx];
    cbn [negb].
  - left. exists pre. now split.
  - right. exists pre, x. rewrite <- app_assoc. cbn [app].
    repeat split; assumption.
Qed.

(** X16. [CombinePaths] puts exactly one separator between a folder and a
    name unless the folder is empty or already ends in one: the result is
    the name alone for an empty folder, folder then name for a folder
    ending in the platform's separator, and folder, separator, name for
    any other folder. The file name of the combined path is the name that
    went in, when that name holds no separator. *)
Theorem GetFileName_of_CombinePaths win32 folder name :
  (folder = [] -> CombinePaths win32 folder name = name) /\
  (forall pre,
     folder = pre ++ [PathSeparator win32] ->
     CombinePaths win32 folder name = folder ++ name) /\
  (forall pre x,
     folder = pre ++ [x] -> x <> PathSeparator win32 ->
     CombinePaths win32 folder name
     = folder ++ PathSeparator win32 :: name) /\
  (Forall (fun c => is_separator c = false) name ->
   GetFileName (CombinePaths win32 folder name) = name).
Proof.
  destruct (CombinePaths_cases win32 folder name)
    as [(Hf & E) | [(pre & Hf & E) | (pre & x & Hf & Hx & E)]].
  - split; [intros _; exact E |].
    split; [intros pre' H; rewrite Hf in H; now destruct pre' |].
    split; [intros pre' x H; rewrite Hf in H; now destruct pre' |].
    intros Hname. rewrite E. now apply GetFileName_bare.
  - split; [intros H; rewrite H in Hf; now destruct pre |].
    split; [intros _ _; exact E |].
    split.
    + intros pre' x H Hx. rewrite Hf in H.
      apply app_inj_tail in H. destruct H as [_ H]. congruence.
    + intros Hname. rewrite E, Hf, <- app_assoc. cbn [app].
      apply GetFileName_joined; [assumption |].
      apply PathSeparator_is_separator.
  - split; [intros H; rewrite H in Hf; now destruct pre |].
    split.
    + intros pre' H. rewrite Hf in H.
      apply app_inj_tail in H. destruct H as [_ H]. congruence.
    + split; [intros _ _ _ _; exact E |].
      intros Hname. rewrite E.
      apply GetFileName_joined; [assumption |].
      apply PathSeparator_is_separator.
Qed.

Lemma GetFileName_of_CombinePaths_witness :
  CombinePaths false (list_ascii_of_string "/opt/mip")
    (list_ascii_of_string "policy.xml")
  = list_ascii_of_string "/opt/mip/policy.xml" /\
  CombinePaths false (list_ascii_of_string "/opt/mip/")
    (list_ascii_of_string "policy.xml")
  = list_ascii_of_string "/opt/mip/policy.xml" /\
  GetFileName (CombinePaths false (list_ascii_of_string "/opt/mip")
                 (list_ascii_of_string "policy.xml")) =
  list_ascii_of_string "policy.xml".
Proof.
  split; [| split].
  - apply (proj1 (proj2 (proj2 (GetFileName_of_CombinePaths false
             (list_ascii_of_string "/opt/mip")
             (list_ascii_of_string "policy.xml"))))
             (list_ascii_of_string "/opt/mi") "p"%char).
    + reflexivity.
    + discriminate.
  - apply (proj1 (proj2 (GetFileName_of_CombinePaths false
             (list_ascii_of_string "/opt/mip/")
             (list_ascii_of_string "policy.xml")))
             (list_ascii_of_string "/opt/mip")).
    reflexivity.
  - apply (proj2 (proj2 (proj2 (GetFileName_of_CombinePaths false
             (list_ascii_of_string "/opt/mip")
             (list_ascii_of_string "policy.xml"))))).
    repeat constructor.
Defined.

(** ** Comparing without case *)

Lemma EqualsIgnoreCase_loop_iff a b :
  List.length a = List.length b ->
  (EqualsIgnoreCase_loop a b = true <-> map tolower a = map tolower b).
Proof.
  revert b. induction a as [| x a IH]; intros [| y b] Hlen;
    cbn [List.length] in Hlen; try discriminate;
    cbn [EqualsIgnoreCase_loop map].
  - tauto.
  - injection Hlen as Hlen.
    destruct (Ascii.eqb (tolower x) (tolower y)) eqn:E; cbn [negb].
    + apply Ascii.eqb_eq in E. rewrite (IH b Hlen). rewrite E.
      split; [now intros -> | now intros [= ->]].
    + apply Ascii.eqb_neq in E.
      split; [discriminate | intros [= H _]; contradiction].
Qed.

Lemma EqualsIgnoreCase_iff a b :
  EqualsIgnoreCase a b = true <-> map tolower a = map tolower b.
Proof.
  unfold EqualsIgnoreCase.
  destruct (Nat.eqb_spec (List.length b) (List.length a)) as [E | E];
    cbn [negb].
  - now apply EqualsIgnoreCase_loop_iff.
  - split; [discriminate |].
    intros H. apply (f_equal (@List.length ascii)) in H.
    rewrite !length_map in H. congruence.
Qed.

(** X17. [EqualsIgnoreCase] is an equivalence on strings that contains
    equality: it holds of a string and itself, does not depend on the order
    of its arguments, chains, and holds only between strings of one
    length; it holds exactly when the two strings are equal once every
    character is lowered. *)
Theorem EqualsIgnoreCase_equivalence :
  (forall a, EqualsIgnoreCase a a = true) /\
  (forall a b, EqualsIgnoreCase a b = EqualsIgnoreCase b a) /\
  (forall a b c,
     EqualsIgnoreCase a b = true -> EqualsIgnoreCase b c = true ->
     EqualsIgnoreCase a c = true) /\
  (forall a b,
     EqualsIgnoreCase a b = true -> List.length a = List.length b) /\
  (forall a b,
     EqualsIgnoreCase a b = true <-> map tolower a = map tolower b).
Proof.
  split; [| split; [| split; [| split]]].
  - intros a. now apply EqualsIgnoreCase_iff.
  - intros a b.
    destruct (EqualsIgnoreCase a b) eqn:E1, (EqualsIgnoreCase b a) eqn:E2;
      try reflexivity.
    + apply EqualsIgnoreCase_iff in E1. symmetry in E1.
      apply EqualsIgnoreCase_iff in E1. congruence.
    + apply EqualsIgnoreCase_iff in E2. symmetry in E2.
      apply EqualsIgnoreCase_iff in E2. congruence.
  - intros a b c H1 H2. apply EqualsIgnoreCase_iff in H1, H2.
    apply EqualsIgnoreCase_iff. congruence.
  - intros a b H. apply EqualsIgnoreCase_iff in H.
    apply (f_equal (@List.length ascii)) in H.
    now rewrite !length_map in H.
  - apply EqualsIgnoreCase_iff.
Qed.

Lemma EqualsIgnoreCase_equivalence_witness :
  EqualsIgnoreCase (list_ascii_of_string ".PFile")
    (list_ascii_of_string ".pfile") = true.
Proof.
  apply (proj1 (proj2 (proj2 EqualsIgnoreCase_equivalence))
           (list_ascii_of_string ".PFile")
           (list_ascii_of_string ".pFILE")
           (list_ascii_of_string ".pfile")).
  - reflexivity.
  - reflexivity.
Defined.

(** ** Trimming *)

Lemma negb_mem_false c chars :
  negb (StdString.mem c chars) = false <-> StdString.mem c chars = true.
Proof. destruct (StdString.mem c chars); cbn; split; congruence. Qed.

Lemma Forall_negb_mem chars l :
  Forall (fun c => negb (StdString.mem c chars) = false) l <->
  Forall (fun c => StdString.mem c chars = true) l.
Proof.
  split; intros H; eapply Forall_impl; try exact H;
    intros c; apply negb_mem_false.
Qed.

Lemma Trim_split a chars :
  exists l r,
    a = l ++ Trim a chars ++ r /\
    Forall (fun c => StdString.mem c chars = true) l /\
    Forall (fun c => StdString.mem c chars = true) r /\
    (forall c rest, Trim a chars = c :: rest ->
                    StdString.mem c chars = false) /\
    (forall rest c, Trim a chars = rest ++ [c] ->
                    StdString.mem c chars = false).
Proof.
  unfold Trim, StdString.find_last_not_of, StdString.find_first_not_of.
  destruct (StdString.find_last_if _ a) as [pos |] eqn:E.
  - apply find_last_if_Some in E.
    destruct E as (pre & c & post & -> & <- & Hc & Hpost).
    apply Forall_negb_mem in Hpost.
    unfold StdString.erase_from, StdString.erase_front.
    replace (pre ++ c :: post) with ((pre ++ [c]) ++ post)
      by now rewrite <- app_assoc.
    rewrite firstn_exact by (rewrite length_app; cbn [List.length]; lia).
    destruct (StdString.find_first_if _ (pre ++ [c])) as [pos2 |] eqn:E2.
    + apply find_first_if_Some in E2.
      destruct E2 as (pre2 & c2 & post2 & E2 & <- & Hc2 & Hpre2).
      apply Forall_negb_mem in Hpre2.
      rewrite E2. rewrite skipn_exact by reflexivity.
      exists pre2, post. rewrite <- !app_assoc. cbn [app].
      repeat split; try assumption.
      * intros x rest [= -> _]. now destruct (StdString.mem x chars).
      * intros rest x Hx.
        assert (Hlast : pre ++ [c] = (pre2 ++ rest) ++ [x]).
        { rewrite E2, <- app_assoc. f_equal. exact Hx. }
        apply app_inj_tail in Hlast. destruct Hlast as [_ ->].
        now destruct (StdString.mem x chars).
    + apply find_first_if_None in E2. apply Forall_app in E2.
      destruct E2 as [_ E2]. inversion E2; subst. congruence.
  - apply find_last_if_None in E. apply Forall_negb_mem in E.
    exists a, []. rewrite app_nil_r. cbn [app].
    repeat split; try assumption; try constructor.
    + discriminate.
    + intros [| ? ?] c; discriminate.
Qed.

(** X18. [Trim] keeps the middle of the string: what it drops on either side
    are only characters of the trim set, and what it keeps neither starts
    nor ends with one. *)
Theorem Trim_strips_both_ends a chars :
  exists l r,
    a = l ++ Trim a chars ++ r /\
    Forall (fun c => StdString.mem c chars = true) l /\
    Forall (fun c => StdString.mem c chars = true) r /\
    (forall c rest, Trim a chars = c :: rest ->
                    StdString.mem c chars = false) /\
    (forall rest c, Trim a chars = rest ++ [c] ->
                    StdString.mem c chars = false).
Proof. apply Trim_split. Qed.

Lemma Trim_padded l core r chars :
  Forall (fun c => StdString.mem c chars = true) l ->
  Forall (fun c => StdString.mem c chars = true) r ->
  (forall c rest, core = c :: rest -> StdString.mem c chars = false) ->
  (forall rest c, core = rest ++ [c] -> StdString.mem c chars = false) ->
  Trim (l ++ core ++ r) chars = core.
Proof.
  intros Hl Hr Hfirst Hlast.
  unfold Trim, StdString.find_last_not_of, StdString.find_first_not_of.
  destruct core as [| x core0].
  - cbn [app].
    assert (H : Forall (fun c => negb (StdString.mem c chars) = false)
                  (l ++ r)).
    { apply Forall_negb_mem, Forall_app. now split. }
    apply find_last_if_None in H. now rewrite H.
  - assert (Hne : x :: core0 <> []) by discriminate.
    destruct (exists_last Hne) as (m & y & E).
    pose proof (Hlast m y E) as Hy.
    pose proof (Hfirst x core0 eq_refl) as Hx.
    rewrite E.
    replace (l ++ (m ++ [y]) ++ r) with ((l ++ m) ++ y :: r)
      by (rewrite <- !app_assoc; reflexivity).
    rewrite find_last_if_split;
      [| now rewrite Hy | now apply Forall_negb_mem].
    unfold StdString.erase_from, StdString.erase_front.
    replace ((l ++ m) ++ y :: r) with (((l ++ m) ++ [y]) ++ r)
      by (rewrite <- !app_assoc; reflexivity).
    rewrite firstn_exact by (rewrite !length_app; cbn [List.length]; lia).
    rewrite <- app_assoc, <- E.
    rewrite find_first_if_split;
      [| now rewrite Hx | now apply Forall_negb_mem].
    now rewrite skipn_exact.
Qed.

(** X19. [Trim] gives back a string that was padded with trim characters: if
    [core] neither starts nor ends with a trim character, trimming
    [l ++ core ++ r] for runs [l], [r] of trim characters returns [core];
    hence trimming twice is trimming once. *)
Theorem Trim_recovers_core l core r chars :
  Forall (fun c => StdString.mem c chars = true) l ->
  Forall (fun c => StdString.mem c chars = true) r ->
  (forall c rest, core = c :: rest -> StdString.mem c chars = false) ->
  (forall rest c, core = rest ++ [c] -> StdString.mem c chars = false) ->
  Trim (l ++ core ++ r) chars = core /\
  Trim (Trim (l ++ core ++ r) chars) chars = Trim (l ++ core ++ r) chars.
Proof.
  intros Hl Hr Hfirst Hlast.
  rewrite Trim_padded by assumption. split; [reflexivity |].
  pose proof (Trim_padded [] core [] chars) as H.
  cbn [app] in H. rewrite app_nil_r in H.
  apply H; try constructor; assumption.
Qed.

Lemma Trim_recovers_core_witness :
  Trim (list_ascii_of_string "  None ") whiteSpaceCharacters =
  list_ascii_of_string "None".
Proof.
  apply (proj1 (Trim_recovers_core
                  (list_ascii_of_string "  ") (list_ascii_of_string "None")
                  (list_ascii_of_string " ") whiteSpaceCharacters
                  ltac:(repeat constructor) ltac:(repeat constructor)
                  ltac:(intros c rest [= <- _]; reflexivity)
                  ltac:(intros [| ? [| ? [| ? [| ? [| ? ?]]]]] c;
                        intros [=]; subst; reflexivity))).
Defined.

(** ** Splitting at a delimiter *)

Lemma pieces_of_nonempty delim s : pieces_of delim s <> [].
Proof.
  destruct s as [| c s]; cbn [pieces_of]; [discriminate |].
  destruct (Ascii.eqb c delim); [discriminate |].
  destruct (pieces_of delim s); discriminate.
Qed.

Lemma getline_scan_pieces delim s :
  match getline_scan s delim with
  | (line, Some rest) =>
      pieces_of delim s = line :: pieces_of delim rest /\
      (List.length rest < List.length s)%nat
  | (line, None) => pieces_of delim s = [line]
  end.
Proof.
  induction s as [| c s IH]; cbn [getline_scan pieces_of]; [reflexivity |].
  destruct (Ascii.eqb c delim); [cbn [List.length]; split; [reflexivity | lia] |].
  destruct (getline_scan s delim) as [line [rest |]].
  - destruct IH as [-> Hlen]. cbn [List.length]. split; [reflexivity | lia].
  - now rewrite IH.
Qed.

Lemma SplitString_loop_pieces fuel delim pending substr output :
  (List.length pending + 2 <= fuel)%nat ->
  SplitString_loop fuel delim (mkStringstream pending false false)
    substr output
  = Some (output ++ pieces_of delim pending).
Proof.
  revert pending substr output.
  induction fuel as [| fuel IH]; intros pending substr output Hfuel; [lia |].
  cbn [SplitString_loop good ss_eofbit ss_failbit negb andb].
  unfold getline. cbn [good ss_eofbit ss_failbit ss_pending negb andb].
  pose proof (getline_scan_pieces delim pending) as Hscan.
  destruct (getline_scan pending delim) as [line [rest |]].
  - destruct Hscan as [-> Hlen].
    rewrite IH by lia. now rewrite <- app_assoc.
  - rewrite Hscan.
    destruct fuel as [| fuel']; [lia |].
    cbn [SplitString_loop good ss_eofbit ss_failbit negb andb]. reflexivity.
Qed.

Lemma join_pieces_of delim s : join delim (pieces_of delim s) = s.
Proof.
  induction s as [| c s IH]; cbn [pieces_of]; [reflexivity |].
  destruct (Ascii.eqb_spec c delim) as [-> | Hc].
  - cbn [join]. pose proof (pieces_of_nonempty delim s).
    destruct (pieces_of delim s) eqn:E; [contradiction |].
    cbn [app]. now rewrite IH.
  - pose proof (pieces_of_nonempty delim s).
    destruct (pieces_of delim s) as [| piece more] eqn:E; [contradiction |].
    cbn [join] in *. destruct more; cbn [app]; now rewrite IH.
Qed.

Lemma pieces_of_no_delim delim s :
  Forall (Forall (fun c => Ascii.eqb c delim = false)) (pieces_of delim s).
Proof.
  induction s as [| c s IH]; cbn [pieces_of].
  - repeat constructor.
  - destruct (Ascii.eqb c delim) eqn:Hc.
    + constructor; [constructor | exact IH].
    + destruct (pieces_of delim s) as [| piece more].
      * repeat constructor. exact Hc.
      * inversion IH; subst. constructor; [| assumption].
        now constructor.
Qed.

Lemma pieces_of_length delim s :
  List.length (pieces_of delim s) = S (count_occ ascii_dec s delim).
Proof.
  induction s as [| c s IH]; cbn [pieces_of count_occ]; [reflexivity |].
  destruct (Ascii.eqb_spec c delim) as [-> | Hc].
  - destruct (ascii_dec delim delim); [| contradiction].
    cbn [List.length]. now rewrite IH.
  - destruct (ascii_dec c delim); [contradiction |].
    pose proof (pieces_of_nonempty delim s).
    destruct (pieces_of delim s); [contradiction |]. exact IH.
Qed.

(** X20. [SplitString] returns, for every string and delimiter: one piece more
    than the string has delimiters (so one empty piece for the empty
    string, and an empty last piece after a trailing delimiter); no piece
    holds the delimiter; and the pieces joined with the delimiter are the
    string. *)
Theorem SplitString_pieces str delim :
  exists output,
    SplitString str delim = Some output /\
    List.length output = S (count_occ ascii_dec str delim) /\
    Forall (Forall (fun c => Ascii.eqb c delim = false)) output /\
    join delim output = str.
Proof.
  exists (pieces_of delim str). unfold SplitString.
  rewrite SplitString_loop_pieces by lia. cbn [app].
  split; [reflexivity |].
  split; [apply pieces_of_length |].
  split; [apply pieces_of_no_delim | apply join_pieces_of].
Qed.

(** ** Escaping for JSON *)

Lemma find_from_split (done todo : list ascii) (c : ascii) :
  StdString.find_from (done ++ todo) c (List.length done) =
  option_map (Nat.add (List.length done))
    (StdString.find_first_if (Ascii.eqb c) todo).
Proof.
  unfold StdString.find_from. now rewrite skipn_exact.
Qed.

Lemma replace_split (done pre post : list ascii) (c : ascii) str :
  StdString.replace (done ++ pre ++ c :: post)
    (List.length done + List.length pre) 1 str =
  (done ++ pre ++ str) ++ post.
Proof.
  unfold StdString.replace.
  replace (done ++ pre ++ c :: post) with ((done ++ pre) ++ c :: post)
    by (now rewrite <- app_assoc).
  rewrite (firstn_exact (done ++ pre) (c :: post))
    by apply length_app.
  rewrite (skipn_past_prefix (done ++ pre) (c :: post))
    by apply length_app.
  cbn [skipn]. now rewrite <- !app_assoc.
Qed.

Lemma flat_map_backslash_free pre :
  Forall (fun x => Ascii.eqb "092"%char x = false) pre ->
  flat_map backslash_doubled pre = pre.
Proof.
  induction 1 as [| x pre Hx _ IH]; cbn [flat_map]; [reflexivity |].
  unfold backslash_doubled at 1. rewrite Ascii.eqb_sym, Hx.
  cbn [app]. now rewrite IH.
Qed.

Lemma escape_backslashes_run fuel done todo :
  (List.length todo + 1 <= fuel)%nat ->
  escape_backslashes fuel (done ++ todo) (List.length done) =
  Some (done ++ flat_map backslash_doubled todo).
Proof.
  revert done todo. induction fuel as [| fuel IH]; intros done todo Hfuel;
    [lia |].
  cbn [escape_backslashes]. rewrite find_from_split.
  destruct (StdString.find_first_if _ todo) as [i |] eqn:E;
    cbn [option_map].
  - apply find_first_if_Some in E.
    destruct E as (pre & c & post & -> & <- & Hc & Hpre).
    apply Ascii.eqb_eq in Hc. subst c.
    rewrite replace_split.
    replace (List.length done + List.length pre + 2)%nat
      with (List.length (done ++ pre ++ ["092"; "092"]%char))
      by (rewrite !length_app; cbn [List.length]; lia).
    rewrite IH by (rewrite length_app in Hfuel; cbn [List.length] in Hfuel; lia).
    rewrite flat_map_app, (flat_map_backslash_free pre) by assumption.
    cbn [flat_map]. unfold backslash_doubled at 2.
    rewrite Ascii.eqb_refl. now rewrite <- !app_assoc.
  - apply find_first_if_None in E.
    now rewrite flat_map_backslash_free.
Qed.

Lemma quotes_escaped_quote_free ab pre :
  Forall (fun x => Ascii.eqb "034"%char x = false) pre ->
  quotes_escaped ab pre = pre.
Proof.
  intros H. revert ab.
  induction H as [| x pre Hx _ IH]; intros ab; cbn [quotes_escaped];
    [reflexivity |].
  rewrite Ascii.eqb_sym, Hx. cbn [andb app]. now rewrite IH.
Qed.

Lemma ends_in_backslash_app (l1 l2 : list ascii) :
  l2 <> [] -> ends_in_backslash (l1 ++ l2) = ends_in_backslash l2.
Proof.
  intros H. unfold ends_in_backslash.
  destruct (exists_last H) as (pre & x & ->).
  now rewrite app_assoc, !last_last.
Qed.

Lemma quotes_escaped_app ab l1 l2 :
  quotes_escaped ab (l1 ++ l2) =
  quotes_escaped ab l1
  ++ quotes_escaped
       (match l1 with [] => ab | _ => ends_in_backslash l1 end) l2.
Proof.
  revert ab. induction l1 as [| c l1 IH]; intros ab; [reflexivity |].
  cbn [app quotes_escaped]. rewrite IH, <- app_assoc.
  f_equal. f_equal. f_equal.
  destruct l1 as [| c1 l1']; [reflexivity |].
  change (c :: c1 :: l1') with ([c] ++ c1 :: l1').
  now rewrite ends_in_backslash_app.
Qed.

Lemma nth_last_of_prefix (done todo : list ascii) :
  done <> [] ->
  nth (List.length done - 1) (done ++ todo) Ascii.zero = last done Ascii.zero.
Proof.
  intros H. destruct (exists_last H) as (pre & x & ->).
  rewrite last_last, <- app_assoc. cbn [app].
  rewrite length_app. cbn [List.length].
  replace (List.length pre + 1 - 1)%nat with (List.length pre) by lia.
  apply nth_middle.
Qed.

Lemma escape_quotes_run fuel done todo :
  (List.length todo + 1 <= fuel)%nat ->
  escape_quotes fuel (done ++ todo) (List.length done) =
  Some (done ++ quotes_escaped (ends_in_backslash done) todo).
Proof.
  revert done todo. induction fuel as [| fuel IH]; intros done todo Hfuel;
    [lia |].
  cbn [escape_quotes]. rewrite find_from_split.
  destruct (StdString.find_first_if _ todo) as [i |] eqn:E;
    cbn [option_map].
  - apply find_first_if_Some in E.
    destruct E as (pre & c & post & -> & <- & Hc & Hpre).
    apply Ascii.eqb_eq in Hc. subst c.
    rewrite length_app in Hfuel. cbn [List.length] in Hfuel.
    rewrite quotes_escaped_app, (quotes_escaped_quote_free _ pre) by assumption.
    cbn [quotes_escaped]. cbn [Ascii.eqb Bool.eqb andb].
    set (ab := match pre with
               | [] => ends_in_backslash done
               | _ => ends_in_backslash pre
               end).
    assert (Hab : ab = ends_in_backslash (done ++ pre)).
    { subst ab. destruct pre; [now rewrite app_nil_r |].
      now rewrite ends_in_backslash_app. }
    assert (Hcond :
      ((List.length done + List.length pre =? 0)%nat
       || negb (Ascii.eqb
                  (nth (List.length done + List.length pre - 1)
                     (done ++ pre ++ "034"%char :: post) Ascii.zero)
                  "092"%char)) = negb ab).
    { rewrite Hab, app_assoc, <- length_app.
      destruct (done ++ pre) as [| x l] eqn:Edp.
      - reflexivity.
      - rewrite <- Edp. rewrite nth_last_of_prefix by (rewrite Edp; discriminate).
        rewrite Edp. reflexivity. }
    rewrite Hcond. destruct ab; cbn [negb].
    + replace (List.length done + List.length pre + 1)%nat
        with (List.length (done ++ pre ++ ["034"%char]))
        by (rewrite !length_app; cbn [List.length]; lia).
      replace (done ++ pre ++ "034"%char :: post)
        with ((done ++ pre ++ ["034"%char]) ++ post)
        by (now rewrite <- !app_assoc).
      rewrite IH by lia.
      replace (ends_in_backslash (done ++ pre ++ ["034"%char])) with false
        by (rewrite app_assoc, ends_in_backslash_app by discriminate;
            reflexivity).
      now rewrite <- !app_assoc.
    + rewrite replace_split.
      replace (List.length done + List.length pre + 2)%nat
        with (List.length (done ++ pre ++ ["092"; "034"]%char))
        by (rewrite !length_app; cbn [List.length]; lia).
      rewrite IH by lia.
      replace (ends_in_backslash (done ++ pre ++ ["092"; "034"]%char))
        with false
        by (rewrite app_assoc, ends_in_backslash_app by discriminate;
            reflexivity).
      now rewrite <- !app_assoc.
  - apply find_first_if_None in E.
    now rewrite quotes_escaped_quote_free.
Qed.

Lemma escapeJsonString_run input :
  escapeJsonString input =
  Some (quotes_escaped false (flat_map backslash_doubled input)).
Proof.
  unfold escapeJsonString.
  pose proof (escape_backslashes_run (List.length input + 1) [] input
                (Nat.le_refl _)) as H1.
  cbn [app List.length] in H1. rewrite H1.
  set (output := flat_map backslash_doubled input).
  pose proof (escape_quotes_run (List.length output + 1) [] output
                (Nat.le_refl _)) as H2.
  cbn [app List.length] in H2. exact H2.
Qed.

Lemma quotes_escaped_backslash_free input :
  Forall (fun c => Ascii.eqb "092"%char c = false) input ->
  quotes_escaped false input =
  flat_map (fun c => if Ascii.eqb c "034"%char then ["092"%char; c] else [c])
    input.
Proof.
  induction 1 as [| c input Hc _ IH]; [reflexivity |].
  cbn [quotes_escaped flat_map negb].
  rewrite (Ascii.eqb_sym c "092"%char), Hc, IH.
  now rewrite andb_true_r.
Qed.

(** X21. On a text without backslashes [escapeJsonString] returns the text with
    a backslash put before every double quote and nothing else changed; a
    text with neither comes back as it is. *)
Theorem escapeJsonString_escapes_quotes input :
  Forall (fun c => Ascii.eqb "092"%char c = false) input ->
  escapeJsonString input =
    Some (flat_map
            (fun c => if Ascii.eqb c "034"%char then ["092"%char; c] else [c])
            input) /\
  (Forall (fun c => Ascii.eqb "034"%char c = false) input ->
   escapeJsonString input = Some input).
Proof.
  intros Hbs. rewrite escapeJsonString_run.
  rewrite flat_map_backslash_free by assumption. split.
  - f_equal. now apply quotes_escaped_backslash_free.
  - intros Hq. f_equal. now apply quotes_escaped_quote_free.
Qed.

Lemma escapeJsonString_escapes_quotes_witness :
  escapeJsonString ["a"; "034"; "b"; "034"]%char =
  Some ["a"; "092"; "034"; "b"; "092"; "034"]%char.
Proof.
  apply (proj1 (escapeJsonString_escapes_quotes ["a"; "034"; "b"; "034"]%char
                  ltac:(repeat constructor))).
Defined.

(** X22. [escapeJsonString] always returns, and a double quote that directly
    follows a backslash in the input is not escaped: the backslash is
    doubled and the quote is copied bare, while the text before and the
    text after are escaped as they would be on their own. *)
Theorem escapeJsonString_quote_after_backslash s t :
  exists es et,
    escapeJsonString s = Some es /\
    escapeJsonString t = Some et /\
    escapeJsonString (s ++ ["092"; "034"]%char ++ t) =
    Some (es ++ ["092"; "092"; "034"]%char ++ et).
Proof.
  eexists _, _. rewrite !escapeJsonString_run.
  split; [reflexivity |]. split; [reflexivity |].
  f_equal. rewrite !flat_map_app. cbn [flat_map app]. unfold backslash_doubled at 2 3.
  cbn [Ascii.eqb Bool.eqb andb app].
  rewrite quotes_escaped_app. f_equal.
Qed.

(** ** The output file name *)

Lemma size_sub_fits a b :
  (b <= a)%nat -> (N.of_nat a < 18446744073709551616)%N ->
  StdString.size_sub a b = N.of_nat (a - b).
Proof.
  intros Hle Hfit. unfold StdString.size_sub.
  replace (18446744073709551616 + N.of_nat a - N.of_nat b)%N
    with (N.of_nat (a - b) + 1 * 18446744073709551616)%N by lia.
  rewrite N.Div0.mod_add. apply N.mod_small. lia.
Qed.

Lemma substr_to_stem stem ext :
  (N.of_nat (List.length (stem ++ ext)) < 18446744073709551616)%N ->
  StdString.substr_to (stem ++ ext)
    (StdString.size_sub (List.length (stem ++ ext)) (List.length ext))
  = stem.
Proof.
  intros Hfit.
  rewrite size_sub_fits by first [assumption | rewrite length_app; lia].
  rewrite substr_to_nat by lia.
  apply firstn_exact. rewrite length_app. lia.
Qed.

(** X23. [CreateOutput] puts [_modified] in front of the extension and drops
    nothing: the name is [base ++ ext] and the result
    [base ++ "_modified" ++ ext], where [ext] is the extension of the name,
    or, when that is [.pfile] in any case, the extension before it followed
    by it. *)
Theorem CreateOutput_inserts_modified outputFileName :
  (N.of_nat (List.length outputFileName) < 18446744073709551616)%N ->
  exists base ext,
    outputFileName = base ++ ext /\
    CreateOutput outputFileName =
      base ++ list_ascii_of_string "_modified" ++ ext /\
    ((EqualsIgnoreCase (GetFileExtension outputFileName)
        (list_ascii_of_string ".pfile") = false /\
      ext = GetFileExtension outputFileName)
     \/
     (EqualsIgnoreCase (GetFileExtension outputFileName)
        (list_ascii_of_string ".pfile") = true /\
      exists stem,
        outputFileName = stem ++ GetFileExtension outputFileName /\
        ext = GetFileExtension stem ++ GetFileExtension outputFileName)).
Proof.
  intros Hfit. unfold CreateOutput.
  destruct (GetFileExtension_split outputFileName) as (stem1 & Hname & _).
  set (ext1 := GetFileExtension outputFileName) in *.
  assert (Hstem1 :
    StdString.substr_to outputFileName
      (StdString.size_sub (List.length outputFileName) (List.length ext1))
    = stem1).
  { rewrite Hname at 1 2. apply substr_to_stem. now rewrite <- Hname. }
  rewrite Hstem1.
  destruct (EqualsIgnoreCase ext1 (list_ascii_of_string ".pfile")) eqn:Epf.
  - destruct (GetFileExtension_split stem1) as (stem2 & Hstem & _).
    set (ext2 := GetFileExtension stem1) in *.
    assert (Hname2 : outputFileName = stem2 ++ ext2 ++ ext1).
    { rewrite Hname at 1. rewrite Hstem at 1. now rewrite <- app_assoc. }
    assert (Hstem2 :
      StdString.substr_to outputFileName
        (StdString.size_sub (List.length outputFileName)
           (List.length (ext2 ++ ext1)))
      = stem2).
    { rewrite Hname2 at 1 2. apply substr_to_stem. now rewrite <- Hname2. }
    rewrite Hstem2.
    exists stem2, (ext2 ++ ext1).
    split; [exact Hname2 |]. split; [reflexivity |].
    right. split; [reflexivity |]. exists stem1. now split.
  - exists stem1, ext1.
    split; [exact Hname |]. split; [reflexivity |].
    left. now split.
Qed.

Lemma CreateOutput_inserts_modified_witness :
  exists base ext,
    list_ascii_of_string "out/report.docx.PFILE" = base ++ ext /\
    CreateOutput (list_ascii_of_string "out/report.docx.PFILE") =
      base ++ list_ascii_of_string "_modified" ++ ext.
Proof.
  destruct (CreateOutput_inserts_modified
              (list_ascii_of_string "out/report.docx.PFILE")
              ltac:(vm_compute; reflexivity))
    as (base & ext & H1 & H2 & _).
  exists base, ext. split; assumption.
Defined.

(** * The error base class *)

Lemma starts_with_app pattern rest :
  StdString.starts_with pattern (pattern ++ rest) = true.
Proof.
  induction pattern as [| c pattern IH]; cbn [app StdString.starts_with].
  - reflexivity.
  - now rewrite Ascii.eqb_refl, IH.
Qed.

Lemma find_leading pattern rest :
  StdString.find (pattern ++ rest) pattern = Some 0%nat.
Proof.
  pose proof (starts_with_app pattern rest) as H.
  destruct (pattern ++ rest); cbn [StdString.find]; now rewrite H.
Qed.

Lemma SetMessage_target_leading old msg details :
  MipError.SetMessage_target old msg (old ++ details) = msg ++ details.
Proof.
  unfold MipError.SetMessage_target. rewrite find_leading.
  unfold StdString.replace. cbn [firstn app Nat.add].
  now rewrite skipn_exact.
Qed.

Lemma CreateFormattedMessage_keeps message :
  Forall (fun c => c <> "010"%char /\ c <> "013"%char) message ->
  MipError.CreateFormattedMessage message = message.
Proof.
  unfold MipError.CreateFormattedMessage.
  induction 1 as [| x message [H1 H2] _ IH]; cbn [filter]; [reflexivity |].
  assert (E : MipError.isNewlineFn x = false).
  { unfold MipError.isNewlineFn.
    apply Ascii.eqb_neq in H1, H2. now rewrite H1, H2. }
  rewrite E. cbn [negb]. now rewrite IH.
Qed.

Lemma c_str_split s :
  Forall (fun c => c <> Ascii.zero) (MipError.c_str s) /\
  exists rest,
    s = MipError.c_str s ++ rest /\
    (rest = [] \/ exists r, rest = Ascii.zero :: r).
Proof.
  induction s as [| c s [IH1 (rest & IH2 & IH3)]]; cbn [MipError.c_str].
  - split; [constructor |]. exists []. auto.
  - destruct (Ascii.eqb_spec c Ascii.zero) as [-> | Hc].
    + split; [constructor |]. exists (Ascii.zero :: s).
      split; [reflexivity |]. right. now exists s.
    + split; [now constructor |]. exists rest. cbn [app].
      split; [now rewrite <- IH2 | exact IH3].
Qed.

Lemma c_str_whole s :
  Forall (fun c => c <> Ascii.zero) s -> MipError.c_str s = s.
Proof.
  induction 1 as [| c s Hc _ IH]; cbn [MipError.c_str]; [reflexivity |].
  apply Ascii.eqb_neq in Hc. now rewrite Hc, IH.
Qed.

Lemma AddDebugInfo_entry e entry sensitive :
  let e' :=
    MipError.AddDebugInfo e (MipError.ref_to (fst entry))
      (MipError.ref_to (snd entry)) sensitive in
  MipError.mFormattedMessage e' =
    MipError.mFormattedMessage e ++ MipError.debug_entry_text true entry /\
  MipError.mMaskedMessage e' =
    MipError.mMaskedMessage e
    ++ MipError.debug_entry_text (negb sensitive) entry.
Proof.
  unfold MipError.AddDebugInfo, MipError.debug_entry_text.
  cbn [MipError.deref].
  destruct (negb (MipError.is_empty (fst entry))
            && negb (MipError.is_empty (snd entry))).
  - cbn [MipError.set_mDebugInfo MipError.set_mFormattedMessage
         MipError.set_mMaskedMessage MipError.mFormattedMessage
         MipError.mMaskedMessage MipError.deref].
    split; [reflexivity |]. now destruct sensitive.
  - now rewrite !app_nil_r.
Qed.

Lemma AddDebugInfo_entries sensitive entries e :
  let e' :=
    fold_left
      (fun e entry =>
         MipError.AddDebugInfo e (MipError.ref_to (fst entry))
           (MipError.ref_to (snd entry)) sensitive)
      entries e in
  MipError.mFormattedMessage e' =
    MipError.mFormattedMessage e
    ++ flat_map (MipError.debug_entry_text true) entries /\
  MipError.mMaskedMessage e' =
    MipError.mMaskedMessage e
    ++ flat_map (MipError.debug_entry_text (negb sensitive)) entries.
Proof.
  revert e. induction entries as [| entry entries IH]; intros e;
    cbn [fold_left flat_map].
  - now rewrite !app_nil_r.
  - destruct (IH (MipError.AddDebugInfo e (MipError.ref_to (fst entry))
                    (MipError.ref_to (snd entry)) sensitive)) as [H1 H2].
    destruct (AddDebugInfo_entry e entry sensitive) as [H3 H4].
    cbn zeta in H1, H2, H3, H4.
    rewrite H1, H2, H3, H4, <- !app_assoc. now split.
Qed.

(** X24. What a newly constructed error renders. After the three-argument
    constructor the message, masked or not, holds no line feed and no
    carriage return: it is the text given with exactly those characters
    left out, so a text without them is kept as it is. [what] is that
    message up to its first NUL, hence the whole of it when the text has
    none. After the five-argument constructor the message is the same
    filtered text followed by the debug entries, which are not filtered:
    the sensitive ones first, their values starred in the masked
    message, then the others. *)
Theorem Error_new_message_has_no_newline
    message name type maskPII debugInfo sensitiveDebugInfo :
  let e := MipError.Error_new message name type in
  let rendered := MipError.GetMessage e maskPII in
  let e5 :=
    MipError.Error_new_with_debug_info message debugInfo
      sensitiveDebugInfo name type in
  Forall (fun c => c <> "010"%char /\ c <> "013"%char) rendered /\
  (forall c, c <> "010"%char -> c <> "013"%char ->
     count_occ ascii_dec rendered c = count_occ ascii_dec message c) /\
  (Forall (fun c => c <> "010"%char /\ c <> "013"%char) message ->
   rendered = message) /\
  Forall (fun c => c <> Ascii.zero) (MipError.what e) /\
  (exists rest,
     MipError.GetMessage e false = MipError.what e ++ rest /\
     (rest = [] \/ exists r, rest = Ascii.zero :: r)) /\
  (Forall (fun c => c <> Ascii.zero) message ->
   MipError.what e = MipError.GetMessage e false) /\
  MipError.GetMessage e5 false =
    MipError.CreateFormattedMessage message
    ++ flat_map (MipError.debug_entry_text true) sensitiveDebugInfo
    ++ flat_map (MipError.debug_entry_text true) debugInfo /\
  MipError.GetMessage e5 true =
    MipError.CreateFormattedMessage message
    ++ flat_map (MipError.debug_entry_text false) sensitiveDebugInfo
    ++ flat_map (MipError.debug_entry_text true) debugInfo.
Proof.
  intros e rendered e5.
  assert (Hr : rendered = MipError.CreateFormattedMessage message)
    by (subst rendered e; now destruct maskPII).
  assert (Hnl : forall c, MipError.isNewlineFn c = false <->
                          c <> "010"%char /\ c <> "013"%char).
  { intros c. unfold MipError.isNewlineFn.
    rewrite orb_false_iff, !Ascii.eqb_neq. tauto. }
  assert (Hsub : forall c, In c (MipError.CreateFormattedMessage message) ->
                           In c message).
  { intros c Hc. unfold MipError.CreateFormattedMessage in Hc.
    now apply filter_In in Hc. }
  split; [| split; [| split; [| split; [| split; [| split; [| split]]]]]].
  - rewrite Hr. unfold MipError.CreateFormattedMessage.
    apply Forall_forall. intros c Hc. apply filter_In in Hc.
    destruct Hc as [_ Hc]. apply Hnl.
    now destruct (MipError.isNewlineFn c).
  - rewrite Hr. unfold MipError.CreateFormattedMessage.
    intros c H1 H2. clear Hr Hsub rendered e e5.
    induction message as [| x message IH];
      cbn [filter count_occ]; [reflexivity |].
    destruct (MipError.isNewlineFn x) eqn:Ex; cbn [negb count_occ].
    + destruct (ascii_dec x c) as [-> | _]; [| exact IH].
      assert (MipError.isNewlineFn c = false) by now apply Hnl.
      congruence.
    + now rewrite IH.
  - intros H. rewrite Hr. now apply CreateFormattedMessage_keeps.
  - apply c_str_split.
  - apply c_str_split.
  - intros H. unfold MipError.what. apply c_str_whole.
    apply Forall_forall. intros c Hc.
    rewrite Forall_forall in H. apply H. now apply Hsub.
  - subst e5. unfold MipError.Error_new_with_debug_info, MipError.GetMessage.
    destruct (AddDebugInfo_entries false debugInfo
                (fold_left
                   (fun e entry =>
                      MipError.AddDebugInfo e (MipError.ref_to (fst entry))
                        (MipError.ref_to (snd entry)) true)
                   sensitiveDebugInfo
                   (MipError.Error_new message name type))) as [H1 _].
    destruct (AddDebugInfo_entries true sensitiveDebugInfo
                (MipError.Error_new message name type)) as [H2 _].
    cbn zeta in H1, H2. rewrite H1, H2, <- app_assoc. reflexivity.
  - subst e5. unfold MipError.Error_new_with_debug_info, MipError.GetMessage.
    destruct (AddDebugInfo_entries false debugInfo
                (fold_left
                   (fun e entry =>
                      MipError.AddDebugInfo e (MipError.ref_to (fst entry))
                        (MipError.ref_to (snd entry)) true)
                   sensitiveDebugInfo
                   (MipError.Error_new message name type))) as [_ H1].
    destruct (AddDebugInfo_entries true sensitiveDebugInfo
                (MipError.Error_new message name type)) as [_ H2].
    cbn zeta in H1, H2. rewrite H1, H2, <- app_assoc. reflexivity.
Qed.

Lemma Error_new_message_has_no_newline_witness :
  MipError.GetMessage
    (MipError.Error_new (list_ascii_of_string "bad input")
       (list_ascii_of_string "BadInputError") MipError.BAD_INPUT_ERROR)
    true
  = list_ascii_of_string "bad input" /\
  MipError.what
    (MipError.Error_new (list_ascii_of_string "bad input")
       (list_ascii_of_string "BadInputError") MipError.BAD_INPUT_ERROR)
  = list_ascii_of_string "bad input".
Proof.
  split.
  - apply (proj1 (proj2 (proj2
             (Error_new_message_has_no_newline
                (list_ascii_of_string "bad input")
                (list_ascii_of_string "BadInputError")
                MipError.BAD_INPUT_ERROR true [] [])))).
    repeat constructor; discriminate.
  - apply (proj1 (proj2 (proj2 (proj2 (proj2 (proj2
             (Error_new_message_has_no_newline
                (list_ascii_of_string "bad input")
                (list_ascii_of_string "BadInputError")
                MipError.BAD_INPUT_ERROR false [] []))))))).
    repeat constructor; discriminate.
Defined.

Ltac error_fields :=
  cbn [MipError.set_mDebugInfo MipError.set_mFormattedMessage
       MipError.set_mMaskedMessage MipError.set_mMessage
       MipError.mFormattedMessage MipError.mMaskedMessage
       MipError.mMessage MipError.mDebugInfo MipError.mName MipError.mType
       MipError.deref].

(** X25. [SetMessage] replaces the message and keeps the debug details. An
    error constructed from a text without newlines has its message at the
    front of both renderings, and [AddDebugInfo] keeps it there. On such
    an error, with renderings [message ++ details] and
    [message ++ masked_details]: [SetMessage] with a string of the
    caller's changes them to that string followed by the same details,
    makes it the message and leaves the debug map; with a reference to
    [mMessage] it changes nothing; with the reference [GetMessage(false)]
    or [GetMessage(true)] returns, the argument is read again after the
    first rendering was rewritten, and the three strings end as stated. *)
Theorem SetMessage_replaces_message :
  (forall message name type,
     Forall (fun c => c <> "010"%char /\ c <> "013"%char) message ->
     MipError.message_leads (MipError.Error_new message name type)) /\
  (forall e key value sensitive,
     MipError.message_leads e ->
     MipError.message_leads (MipError.AddDebugInfo e key value sensitive)) /\
  (forall e details masked_details,
     MipError.mFormattedMessage e = MipError.mMessage e ++ details ->
     MipError.mMaskedMessage e = MipError.mMessage e ++ masked_details ->
     (forall msg,
        let e' := MipError.SetMessage e (MipError.ref_to msg) in
        MipError.GetMessage e' false = msg ++ details /\
        MipError.GetMessage e' true = msg ++ masked_details /\
        MipError.mMessage e' = msg /\
        MipError.GetDebugInfo e' = MipError.GetDebugInfo e /\
        MipError.message_leads e') /\
     MipError.SetMessage e MipError.ref_mMessage = e /\
     (let e' := MipError.SetMessage e MipError.ref_mFormattedMessage in
      MipError.GetMessage e' false
        = MipError.mMessage e ++ details ++ details /\
      MipError.GetMessage e' true
        = MipError.mMessage e ++ details ++ details ++ masked_details /\
      MipError.mMessage e' = MipError.mMessage e ++ details ++ details) /\
     (let e' := MipError.SetMessage e MipError.ref_mMaskedMessage in
      MipError.GetMessage e' false
        = MipError.mMessage e ++ masked_details ++ details /\
      MipError.GetMessage e' true
        = MipError.mMessage e ++ masked_details ++ masked_details /\
      MipError.mMessage e'
        = MipError.mMessage e ++ masked_details ++ masked_details)).
Proof.
  split; [| split].
  - intros message name type H.
    exists [], []. cbn [MipError.Error_new MipError.mFormattedMessage
                         MipError.mMaskedMessage MipError.mMessage].
    now rewrite CreateFormattedMessage_keeps, app_nil_r.
  - intros e key value sensitive (d & md & Hd & Hmd).
    unfold MipError.AddDebugInfo.
    destruct (negb (MipError.is_empty (MipError.deref e key))
              && negb (MipError.is_empty (MipError.deref e value)));
      [| now exists d, md].
    eexists _, _. error_fields.
    rewrite Hd, Hmd, <- !app_assoc. split; reflexivity.
  - intros e d md Hd Hmd.
    destruct e as [M D N T F K].
    cbn [MipError.mFormattedMessage MipError.mMaskedMessage
         MipError.mMessage] in Hd, Hmd.
    subst F K.
    unfold MipError.GetMessage, MipError.GetDebugInfo,
      MipError.message_leads, MipError.SetMessage.
    split; [| split; [| split]].
    + intros msg. cbn zeta. error_fields.
      rewrite !SetMessage_target_leading.
      repeat split. now exists d, md.
    + error_fields. now rewrite !SetMessage_target_leading.
    + cbn zeta. error_fields.
      rewrite !SetMessage_target_leading, <- !app_assoc. repeat split.
    + cbn zeta. error_fields.
      rewrite !SetMessage_target_leading, <- !app_assoc. repeat split.
Qed.

Lemma SetMessage_replaces_message_witness :
  let e :=
    MipError.AddDebugInfo
      (MipError.Error_new (list_ascii_of_string "old")
         (list_ascii_of_string "FileIOError") MipError.FILE_IO_ERROR)
      (MipError.ref_to (list_ascii_of_string "path"))
      (MipError.ref_to (list_ascii_of_string "/secret"))
      true in
  (MipError.GetMessage
     (MipError.SetMessage e (MipError.ref_to (list_ascii_of_string "new")))
     false
   = list_ascii_of_string "new, path=/secret" /\
   MipError.GetMessage
     (MipError.SetMessage e (MipError.ref_to (list_ascii_of_string "new")))
     true
   = list_ascii_of_string "new, path=***") /\
  MipError.mMessage (MipError.SetMessage e MipError.ref_mMaskedMessage)
  = list_ascii_of_string "old, path=***, path=***".
Proof.
  intros e.
  destruct (proj2 (proj2 SetMessage_replaces_message) e
              (list_ascii_of_string ", path=/secret")
              (list_ascii_of_string ", path=***")
              eq_refl eq_refl) as (H1 & _ & _ & H4).
  split.
  - destruct (H1 (list_ascii_of_string "new")) as (Ha & Hb & _).
    split; assumption.
  - destruct H4 as (_ & _ & Hc). exact Hc.
Defined.



